(** * scikit-rf example notebooks: transmission-line formulas and the
      4-port assembly of one-path calibrated 2-port measurements

    Two notebooks are embedded here:

    - "Modeling Transmission Line Properties" (the reflection coefficient,
      the standing wave ratio, the voltage divider at the line input);
    - "Measuring a 4-Port With The 1.5-Port NanoVNA V2" (offline
      [TwoPortOnePath] calibration and the nested loop that stores the twelve
      corrected 2-ports in one 4-port network).

    The 4-port notebook only loads, passes on and copies S-parameters: they
    are kept as pairs of rationals (every finite binary64 value is one).  The
    transmission-line notebook computes with them: its voltage divider is
    embedded in binary64, as numpy evaluates it, next to the same formulas
    over exact complex numbers. *)

From Stdlib Require Import QArith Qabs Lqa Qfield.
From Stdlib Require Import Floats.SpecFloat.
From Stdlib Require Import String.
From stdpp Require Import base option list strings pretty.

(** ** Exact complex numbers *)

Module Cx.

Record complex : Type := Cplx { re : Q; im : Q }.

Definition of_Q (x : Q) : complex := Cplx x 0.
Definition czero : complex := of_Q 0.
Definition cone : complex := of_Q 1.


Definition csub (z w : complex) : complex := Cplx (re z - re w) (im z - im w).


End Cx.

Export Cx.

(** ** numpy's complex128

    A [complex128] is a pair of binary64 values.  binary64 is IEEE 754
    with 53 bits of precision, exponents below 1024 and rounding to nearest
    even, as Python's [float] and numpy's [float64]; its operations are
    those of the Standard Library's specification of IEEE 754.  The complex
    operations are the element loops of numpy's ufuncs. *)

Module Np.

Abbreviation float := spec_float.



Record complex128 : Type := C128 { real : float; imag : float }.






(** [a == b] *)
Definition eqb (a b : complex128) : bool :=
  SFeqb (real a) (real b) && SFeqb (imag a) (imag b).

End Np.

(** ** Transmission-line notebook *)

Module TLine.

(** Modelled from the spec: [zl_2_Gamma0] is a library function that the
    notebook only calls as [rf.zl_2_Gamma0(Z_0, Z_L)].  The spec gives the
    reflection coefficient of a load [zl] on a line of characteristic
    impedance [z0] as (ZL - Z0) / (ZL + Z0); real impedances. *)
Definition zl_2_Gamma0 (z0 zl : Q) : Q := ((zl - z0) / (zl + z0))%Q.

(** Modelled from the spec: [zl_2_swr], called as [rf.zl_2_swr(Z_0, Z_L)].
    The spec derives the standing wave ratio from the magnitude of the
    reflection coefficient as (1 + |Gamma|) / (1 - |Gamma|). *)
Definition zl_2_swr (z0 zl : Q) : Q :=
  (let g := Qabs (zl_2_Gamma0 z0 zl) in (1 + g) / (1 - g))%Q.

(** The constants of the problem, as the notebook sets them. *)
Definition Z_0 : Q := 75.
Definition Z_L : Q := 150.







End TLine.

(** ** The 4-port notebook: data model *)

Module Splitter.

(** A frequency sweep: the ordered frequency points, in Hz. *)
Abbreviation Frequency := (list Q).

(** The S-matrix of a 2-port at one frequency point; [s10] is S21. *)
Record smatrix2 : Type := SMat2 { s00 : complex; s01 : complex; s10 : complex; s11 : complex }.

(** The two ports of a 2-port, as the literal indices 0 and 1 of the code. *)
Inductive port2 : Type := p0 | p1.

Definition at2 (m : smatrix2) (i j : port2) : complex :=
  match i, j with
  | p0, p0 => s00 m
  | p0, p1 => s01 m
  | p1, p0 => s10 m
  | p1, p1 => s11 m
  end.

(** A 2-port [skrf.Network]: raw measurements, ideals, corrected results. *)
Record Network2 : Type := Net2 { frequency2 : Frequency; s2 : list smatrix2 }.

(** [nw.s[:, i, j]] of a 2-port: one value per frequency point. *)
Definition slice2 (nw : Network2) (i j : port2) : list complex :=
  (fun m => at2 m i j) <$> s2 nw.

(** An n-port S-parameter array [f x n x n]: per frequency point the rows
    of the matrix. *)
Abbreviation matrix := (list (list complex)).
Abbreviation sarray := (list (list (list complex))).

(** The multiport [skrf.Network] that the notebook fills in place. *)
Record Network : Type := Net { frequency : Frequency; s : sarray }.

(** [np.zeros((f, n, m), dtype=complex)] *)
Definition zeros (f n m : nat) : sarray := replicate f (replicate n (replicate m czero)).

(** [a[f, i, j]] *)
Definition entry (a : sarray) (f i j : nat) : option complex :=
  m ← a !! f; r ← m !! i; r !! j.

Definition set_entry (m : matrix) (i j : nat) (x : complex) : matrix :=
  alter (fun r => <[j := x]> r) i m.

Definition in_range (m : matrix) (i j : nat) : bool :=
  bool_decide (is_Some (r ← m !! i; r !! j)).

(** What can be raised: a file that does not load, the calibration errors of
    the spec, a calibration applied before it was run, a name that was never
    bound, and numpy's errors of an assignment to a slice. *)
Inductive error : Type :=
| IOError (path : string)
| InsufficientDataError
| SingularSystemError
| FrequencyMismatchError
| NotCalibrated
| NameError (name : string)
| ValueError
| IndexError.

Inductive outcome (A : Type) : Type :=
| Ok (a : A)
| Raise (e : error).
Arguments Ok {A} a.
Arguments Raise {A} e.

(** numpy broadcasting of a vector of shape [(k,)] to shape [(f,)]: the same
    length, or a single value repeated. *)
Definition broadcast (f : nat) (v : list complex) : option (list complex) :=
  if decide (length v = f) then Some v
  else match v with
       | [x] => Some (replicate f x)
       | _ => None
       end.

(** [a[:, i, j] = v].  An index outside the array raises [IndexError], a
    vector that cannot be broadcast to the frequency axis raises
    [ValueError]; either way the array is then left as it was. *)
Definition assign_slice (a : sarray) (i j : nat) (v : list complex) : outcome sarray :=
  if forallb (fun m => in_range m i j) a then
    match broadcast (length a) v with
    | Some vs => Ok (zip_with (fun m x => set_entry m i j x) a vs)
    | None => Raise ValueError
    end
  else Raise IndexError.

(** ** The library interface

    The notebook calls scikit-rf for reading Touchstone files, for solving
    the error terms of the calibration and for correcting a measurement
    pair.  None of these is code of the notebook; they are the operations
    of this class. *)
Class Library : Type := {
  (** the fitted error-term set (error-box model) *)
  coefs : Type;
  (** [skrf.Network(path)] for a [.s2p] file *)
  read_touchstone : string -> outcome Network2;
  (** the error-term solve of [cal.run()], from ideals and measured *)
  solve : list Network2 -> list Network2 -> outcome coefs;
  (** the correction of a (forward, reverse) pair by fitted error terms *)
  correct : coefs -> Network2 -> Network2 -> outcome Network2
}.

(** Modelled from the spec: [skrf.DefinedGammaZ0], a medium defined by its
    frequency sweep and characteristic impedance. *)
Record DefinedGammaZ0 : Type := Media { media_frequency : Frequency; media_Z0 : Q }.

Definition constant_network (fr : Frequency) (m : smatrix2) : Network2 :=
  Net2 fr (replicate (length fr) m).

(** Modelled from the spec: the ideal standards of a medium are 2-ports on
    the sweep of the medium, the same at every frequency point.  The ideal
    short, Gamma = -1 on both ports. *)
Definition media_short (line : DefinedGammaZ0) : Network2 :=
  constant_network (media_frequency line) (SMat2 (of_Q (-1)) czero czero (of_Q (-1))).
(** Modelled from the spec: the ideal open, Gamma = +1 on both ports. *)
Definition media_open (line : DefinedGammaZ0) : Network2 :=
  constant_network (media_frequency line) (SMat2 cone czero czero cone).
(** Modelled from the spec: the ideal match, Gamma = 0 on both ports. *)
Definition media_match (line : DefinedGammaZ0) : Network2 :=
  constant_network (media_frequency line) (SMat2 czero czero czero czero).
(** Modelled from the spec: the ideal through, lossless and perfectly
    matched. *)
Definition media_thru (line : DefinedGammaZ0) : Network2 :=
  constant_network (media_frequency line) (SMat2 czero cone cone czero).

(** ** The kernel state and the monad of the notebook

    The two objects the notebook mutates are the calibration [cal] (its
    error terms are stored by [cal.run()]) and the 4-port [splitter_cal].
    [trace] is a ghost record of the calls of [apply_cal] and of the slice
    assignments, in the order they happen. *)

Section State.
Context {K : Type}.

Record Calibration_of : Type := Cal {
  ideals : list Network2;
  measured : list Network2;
  n_thrus : nat;
  source_port : nat;
  cal_coefs : option K
}.

Inductive event_of : Type :=
| EvApplyCal (k : K) (fwd rev : Network2)
| EvAssign (i j : nat).

Record heap_of : Type := Heap {
  cal : option Calibration_of;
  splitter_cal : option Network;
  trace : list event_of
}.

Definition empty_heap : heap_of := Heap None None [].

(** The error terms stored in the calibration, if it exists and was solved. *)
Definition stored_coefs (h : heap_of) : option K := c ← cal h; cal_coefs c.

(** The calls of [apply_cal] in a trace, with the error terms each one read
    and its arguments; and the positions assigned to. *)
Definition calls_of (evs : list event_of) : list (K * Network2 * Network2) :=
  omap (fun e => match e with
                 | EvApplyCal k fwd rev => Some (k, fwd, rev)
                 | EvAssign _ _ => None
                 end) evs.

Definition assigned (evs : list event_of) : list (nat * nat) :=
  omap (fun e => match e with
                 | EvAssign i j => Some (i, j)
                 | EvApplyCal _ _ _ => None
                 end) evs.

End State.

Arguments Calibration_of K : clear implicits.
Arguments event_of K : clear implicits.
Arguments heap_of K : clear implicits.

Section Notebook.
Context `{Lib : Library}.

Local Abbreviation Calibration := (Calibration_of coefs).
Local Abbreviation event := (event_of coefs).
Local Abbreviation heap := (heap_of coefs).

(** A statement runs from a heap to an outcome and a heap.  An exception
    leaves the heap as it is at that point: what was assigned before stays
    assigned. *)
Definition M (A : Type) : Type := heap -> outcome A * heap.

#[export] Instance M_ret : MRet M := fun A a h => (Ok a, h).
#[export] Instance M_bind : MBind M := fun A B f m h =>
  match m h with
  | (Ok a, h') => f a h'
  | (Raise e, h') => (Raise e, h')
  end.

Definition lift {A} (r : outcome A) : M A := fun h => (r, h).

(** [for x in l: body(x)] *)
Fixpoint for_ {A} (l : list A) (body : A -> M unit) : M unit :=
  match l with
  | [] => mret tt
  | x :: l' => body x ;; for_ l' body
  end.

(** [skrf.Network(path)] *)
Definition Network_load (path : string) : M Network2 := lift (read_touchstone path).

(** Modelled from the spec: the constructor [TwoPortOnePath(ideals=...,
    measured=..., n_thrus=..., source_port=...)] pairs the ideal responses
    with the raw measurements; no error terms are stored yet. *)
Definition TwoPortOnePath (ids meas : list Network2) (n src : nat) : M unit :=
  fun h => (Ok tt, Heap (Some (Cal ids meas n src None)) (splitter_cal h) (trace h)).

(** Modelled from the spec: [cal.run()] solves the error terms from the
    standards and stores them in the calibration; a failing solve raises
    and stores nothing. *)
Definition cal_run : M unit := fun h =>
  match cal h with
  | None => (Raise (NameError "cal"), h)
  | Some c =>
    match solve (ideals c) (measured c) with
    | Ok k => (Ok tt, Heap (Some (Cal (ideals c) (measured c) (n_thrus c) (source_port c) (Some k)))
                           (splitter_cal h) (trace h))
    | Raise e => (Raise e, h)
    end
  end.

(** Modelled from the spec: [cal.apply_cal((fwd, rev))] reads the stored
    error terms and corrects the pair with them; it has no side effect (the
    call itself is recorded in the ghost trace).  The spec does not say what
    a calibration that was never solved does: that is an error here. *)
Definition apply_cal (fwd rev : Network2) : M Network2 := fun h =>
  match cal h with
  | None => (Raise (NameError "cal"), h)
  | Some c =>
    match cal_coefs c with
    | None => (Raise NotCalibrated, h)
    | Some k => (correct k fwd rev,
                 Heap (cal h) (splitter_cal h) (trace h ++ [EvApplyCal k fwd rev]))
    end
  end.

(** [splitter_cal.s[:, i, j] = v] *)
Definition assign (i j : nat) (v : list complex) : M unit := fun h =>
  match splitter_cal h with
  | None => (Raise (NameError "splitter_cal"), h)
  | Some nw =>
    match assign_slice (s nw) i j v with
    | Ok a => (Ok tt, Heap (cal h) (Some (Net (frequency nw) a)) (trace h ++ [EvAssign i j]))
    | Raise e => (Raise e, h)
    end
  end.

(** ['./data_MiniCircuits_splitter/dut_raw_{}{}.s2p'.format(a, b)] *)
Definition dut_raw_path (a b : nat) : string :=
  "./data_MiniCircuits_splitter/dut_raw_" +:+ pretty a +:+ pretty b +:+ ".s2p".

Definition cal_short_path : string := "./data_MiniCircuits_splitter/cal_short_raw.s2p".
Definition cal_open_path : string := "./data_MiniCircuits_splitter/cal_open_raw.s2p".
Definition cal_match_path : string := "./data_MiniCircuits_splitter/cal_match_raw.s2p".
Definition cal_thru_path : string := "./data_MiniCircuits_splitter/cal_thru_raw.s2p".

(** The body of the nested loop, under [if i_src != i_recv]. *)
Definition body (i_src i_recv : nat) : M unit :=
  dut_raw_fwd ← Network_load (dut_raw_path (i_recv + 1) (i_src + 1));
  dut_raw_rev ← Network_load (dut_raw_path (i_src + 1) (i_recv + 1));
  dut_cal ← apply_cal dut_raw_fwd dut_raw_rev;
  assign i_src i_src (slice2 dut_cal p0 p0);;
  assign i_recv i_src (slice2 dut_cal p1 p0);;
  assign i_src i_recv (slice2 dut_cal p0 p1);;
  assign i_recv i_recv (slice2 dut_cal p1 p1).

(** One pass of the inner loop, guard included. *)
Definition iteration (i_src i_recv : nat) : M unit :=
  if decide (i_src ≠ i_recv) then body i_src i_recv else mret tt.

(** [for i_src in range(4): for i_recv in range(4): ...] *)
Definition assembly_loop : M unit :=
  for_ (seq 0 4) (fun i_src => for_ (seq 0 4) (fun i_recv => iteration i_src i_recv)).

(** The cell that loads the standards and runs the calibration.  It gives
    back [short_raw], which the next cell uses. *)
Definition calibration_cell : M Network2 :=
  short_raw ← Network_load cal_short_path;
  open_raw ← Network_load cal_open_path;
  match_raw ← Network_load cal_match_path;
  thru_raw ← Network_load cal_thru_path;
  let line := Media (frequency2 short_raw) 50 in
  TwoPortOnePath [media_short line; media_open line; media_match line; media_thru line]
                 [short_raw; open_raw; match_raw; thru_raw] 1 1;;
  cal_run;;
  mret short_raw.

(** [s = np.zeros(...)]; [splitter_cal = skrf.Network(frequency=..., s=s)] *)
Definition new_splitter_cal (short_raw : Network2) : M unit := fun h =>
  let s := zeros (length (frequency2 short_raw)) 4 4 in
  (Ok tt, Heap (cal h) (Some (Net (frequency2 short_raw) s)) (trace h)).

Definition assembly_cell (short_raw : Network2) : M unit :=
  new_splitter_cal short_raw;;
  assembly_loop.

Definition notebook : M unit :=
  short_raw ← calibration_cell;
  assembly_cell short_raw.

(** *** The loop, read off as data

    [ordered_pairs] are the pairs that pass the guard, in loop order;
    [targets] are the four assignments of one pass, in program order, each
    with the entry of [dut_cal] it copies. *)

Definition ordered_pairs : list (nat * nat) :=
  filter (fun p => p.1 ≠ p.2) (i_src ← seq 0 4; i_recv ← seq 0 4; [(i_src, i_recv)]).

Definition targets (p : nat * nat) : list (nat * nat * (port2 * port2)) :=
  [ (p.1, p.1, (p0, p0)); (p.2, p.1, (p1, p0)); (p.1, p.2, (p0, p1)); (p.2, p.2, (p1, p1)) ].

(** All assignments of a run of passes, in program order, each with its
    pass; and the last of them that stores into entry [(r, c)]. *)
Definition all_targets (ps : list (nat * nat))
  : list ((nat * nat) * (nat * nat * (port2 * port2))) :=
  p ← ps; (fun t => (p, t)) <$> targets p.

Definition last_writer (ps : list (nat * nat)) (r c : nat)
  : option ((nat * nat) * (nat * nat * (port2 * port2))) :=
  last (filter (fun pt => pt.2.1 = (r, c)) (all_targets ps)).

(** The corrected 2-port of the pass for [p], by error terms [k]. *)
Definition dut_cal_of (k : coefs) (p : nat * nat) : outcome Network2 :=
  match read_touchstone (dut_raw_path (p.2 + 1) (p.1 + 1)) with
  | Ok fwd =>
    match read_touchstone (dut_raw_path (p.1 + 1) (p.2 + 1)) with
    | Ok rev => correct k fwd rev
    | Raise e => Raise e
    end
  | Raise e => Raise e
  end.

(** The value that [a[:, i, j] = v] stores at frequency index [f] of an
    array with [n] frequency points. *)
Definition bvalue (n : nat) (v : list complex) (f : nat) : option complex :=
  vs ← broadcast n v; vs !! f.

(** The value the pass for [p] stores at frequency index [f] when it copies
    entry [ab] of its [dut_cal]. *)
Definition written (k : coefs) (n : nat) (p : nat * nat) (ab : port2 * port2) (f : nat)
  : option complex :=
  match dut_cal_of k p with
  | Ok d => bvalue n (slice2 d ab.1 ab.2) f
  | Raise _ => None
  end.

(** Entry [(r, c)] at frequency index [f] after the assignments of the pass
    for [p], from its value [old] before: the last assignment to [(r, c)]
    decides. *)
Definition after_pass (k : coefs) (n : nat) (f r c : nat) (old : option complex) (p : nat * nat)
  : option complex :=
  fold_left (fun acc t => if decide (t.1 = (r, c)) then written k n p t.2 f else acc)
            (targets p) old.

Definition after_passes (k : coefs) (n : nat) (f r c : nat) (old : option complex)
  (ps : list (nat * nat)) : option complex :=
  fold_left (after_pass k n f r c) ps old.

(** The two files of the pass for [p], when both load. *)
Definition pass_files (p : nat * nat) : option (Network2 * Network2) :=
  match read_touchstone (dut_raw_path (p.2 + 1) (p.1 + 1)),
        read_touchstone (dut_raw_path (p.1 + 1) (p.2 + 1)) with
  | Ok fwd, Ok rev => Some (fwd, rev)
  | _, _ => None
  end.

(** The events of one complete pass. *)
Definition pass_events (k : coefs) (p : nat * nat) : list event :=
  match pass_files p with
  | Some (fwd, rev) => EvApplyCal k fwd rev :: ((fun t => EvAssign t.1.1 t.1.2) <$> targets p)
  | None => []
  end.

(** The pass for [p] has [i] as its source or as its receiver. *)
Definition contains (i : nat) (p : nat * nat) : Prop := p.1 = i \/ p.2 = i.

#[export] Instance contains_dec i p : Decision (contains i p).
Proof. unfold contains. apply _. Defined.



(** Every matrix of the array is 4 x 4, as [np.zeros((f, 4, 4))] makes it. *)
Definition wf4 (a : sarray) : Prop :=
  Forall (fun m => length m = 4 /\ Forall (fun r => length r = 4) m) a.

(** The reading of "no partial results" under which a notebook that raised
    has left no corrected entry in an aggregate: whatever entry there is,
    is the zero it was created with. *)
Definition no_partial_results : Prop :=
  forall e h', notebook empty_heap = (Raise e, h') ->
  forall nw f r c x, splitter_cal h' = Some nw -> entry (s nw) f r c = Some x -> x = czero.

(** *** Relations between the heap before and the heap after

    [keeps R m]: whatever [m] returns or raises, the heap it leaves is
    related by [R] to the heap it started from. *)
Definition keeps {A} (R : relation heap) (m : M A) : Prop :=
  forall h r h', m h = (r, h') -> R h h'.

(** The entries of the aggregate outside a set [T] of positions are left
    alone, its sweep and its number of frequency points too, and so is the
    calibration. *)
Definition unchanged_outside (T : nat -> nat -> Prop) (h h' : heap) : Prop :=
  cal h' = cal h /\
  match splitter_cal h with
  | Some nw =>
    exists nw', splitter_cal h' = Some nw' /\ frequency nw' = frequency nw /\
                length (s nw') = length (s nw) /\
                forall f r c, ~ T r c -> entry (s nw') f r c = entry (s nw) f r c
  | None => splitter_cal h' = None
  end.

(** The positions in the rows and columns of both ports of a pass. *)
Definition pair_block (i j : nat) (r c : nat) : Prop := (r = i \/ r = j) /\ (c = i \/ c = j).

(** A 4 x 4 aggregate stays 4 x 4. *)
Definition wf_kept (h h' : heap) : Prop :=
  forall nw, splitter_cal h = Some nw -> wf4 (s nw) ->
             exists nw', splitter_cal h' = Some nw' /\ wf4 (s nw').

(** Every call of [apply_cal] added to the trace had raw DUT files that
    loaded as its two arguments. *)
Definition calls_on_files (h h' : heap) : Prop :=
  exists evs, trace h' = trace h ++ evs /\
    Forall (fun c => (exists a b, read_touchstone (dut_raw_path a b) = Ok c.1.2) /\
                     (exists a b, read_touchstone (dut_raw_path a b) = Ok c.2)) (calls_of evs).





End Notebook.

(** ** Example measurement sets

    Raw 2-port files as the NanoVNA gives them: S11 and S21 measured, S12
    and S22 zero, on a sweep of two frequency points.  The file for sink
    [a] and source [b] carries values that tell [a] and [b]. *)

Definition raw_on (fr : list Q) (a b : Z) : Network2 :=
  Net2 fr
       [SMat2 (Cplx (inject_Z a) (inject_Z b)) czero (Cplx (inject_Z (10 * a + b)) 0) czero;
        SMat2 (Cplx (inject_Z a) (inject_Z (- b))) czero (Cplx (inject_Z (10 * a + b)) 1) czero].

Definition sweep_MHz : list Q := [1000000%Q; 2000000%Q].
Definition raw : Z -> Z -> Network2 := raw_on sweep_MHz.

Definition cal_files : list (string * Network2) :=
  [(cal_short_path, raw 0 1); (cal_open_path, raw 0 2);
   (cal_match_path, raw 0 3); (cal_thru_path, raw 0 4)].

Definition dut_files : list (string * Network2) :=
  a ← seq 1 4; b ← seq 1 4;
  if decide (a = b) then [] else [(dut_raw_path a b, raw (Z.of_nat a) (Z.of_nat b))].

Definition all_files : list (string * Network2) := cal_files ++ dut_files.

(** Reading from a directory given as a list of named files. *)
Definition read_from (files : list (string * Network2)) (path : string) : outcome Network2 :=
  match list_find (fun e => String.eqb e.1 path = true) files with
  | Some (_, (_, nw)) => Ok nw
  | None => Raise (IOError path)
  end.

(** A directivity-only error model: the error term is the raw S11 of the
    match standard, and it is subtracted from each measured reflection. *)
Definition solve_directivity (ids meas : list Network2) : outcome (list complex) :=
  match meas with
  | [_; _; m; _] => Ok (slice2 m p0 p0)
  | _ => Raise InsufficientDataError
  end.

(** Both orientations corrected alike: the reverse measurement gives S22
    and S12. *)
Definition correct_both (k : list complex) (fwd rev : Network2) : outcome Network2 :=
  Ok (Net2 (frequency2 fwd)
        (zip_with (fun e mm => SMat2 (csub (s00 mm.1) e) (s10 mm.2) (s10 mm.1) (csub (s00 mm.2) e))
                  k (zip (s2 fwd) (s2 rev)))).

Definition library_of (files : list (string * Network2))
  (corr : list complex -> Network2 -> Network2 -> outcome Network2) : Library :=
  {| coefs := list complex;
     read_touchstone := read_from files;
     solve := solve_directivity;
     correct := corr |}.

(** The heap when the loop starts: the calibration cell has run and the
    empty 4-port has been created. *)
Definition ready `{Lib : Library} : heap_of coefs :=
  ((short_raw ← calibration_cell; new_splitter_cal short_raw) empty_heap).2.

(** All sixteen files present. *)
Definition bench : Library := library_of all_files correct_both.

(** The file of sink 3, source 1 is missing. *)
Definition bench_missing : Library :=
  library_of (filter (fun e => e.1 ≠ dut_raw_path 3 1) all_files) correct_both.


#[local] Instance Q_eq_dec : EqDecision Q.
Proof. solve_decision. Defined.



(** The error terms that the calibration cell stores on the example sets,
    the heap when the loop starts, and the heap when it has run. *)
Definition bench_coefs : list complex := Eval vm_compute in slice2 (raw 0 3) p0 p0.
Definition bench_empty : Network := Eval vm_compute in Net sweep_MHz (zeros 2 4 4).
Definition bench_ready : heap_of (list complex) := Eval vm_compute in @ready bench.
Definition bench_done : heap_of (list complex) := Eval vm_compute in (@assembly_loop bench bench_ready).2.
(** The aggregate that the loop leaves on [bench]. *)
Definition bench_full : Network :=
  Eval vm_compute in default bench_empty (splitter_cal bench_done).
Definition bench_first_pass : heap_of (list complex) :=
  Eval vm_compute in (@iteration bench 0 1 bench_ready).2.
Definition bench_notebook : heap_of (list complex) := Eval vm_compute in (@notebook bench empty_heap).2.

(** On [bench_missing] the notebook raises while loading the forward file of
    the pass for (0, 2). *)
Definition missing_error : error := Eval vm_compute in IOError (dut_raw_path 3 1).
Definition missing_heap : heap_of (list complex) :=
  Eval vm_compute in (@notebook bench_missing empty_heap).2.



(** ** How the assembly loop ends

    A pass on a 4 x 4 aggregate of [F] frequency points can only fail in
    its two loads, in its correction, or in its first assignment, when the
    corrected 2-port has neither [F] frequency points nor a single one. *)

Section Outcome.
Context `{Lib : Library}.

Definition pass_error (k : coefs) (F : nat) (p : nat * nat) : option error :=
  match dut_cal_of k p with
  | Raise e => Some e
  | Ok d => if decide (length (s2 d) = F \/ length (s2 d) = 1) then None else Some ValueError
  end.

(** The error of the first pass that has one. *)
Definition first_error (k : coefs) (F : nat) (ps : list (nat * nat)) : outcome unit :=
  match omap (pass_error k F) ps with
  | [] => Ok tt
  | e :: _ => Raise e
  end.

End Outcome.

Section Facts.
Context `{Lib : Library}.

Local Abbreviation heap := (heap_of coefs).

(** *** Sequencing *)

Lemma bind_ok {A B} (m : M A) (f : A -> M B) h b h' :
  (m ≫= f) h = (Ok b, h') ->
  exists a h1, m h = (Ok a, h1) /\ f a h1 = (Ok b, h').
Proof.
  unfold mbind, M_bind. destruct (m h) as [[a|e] h1]; [eauto | discriminate].
Qed.

Lemma bind_raise {A B} (m : M A) (f : A -> M B) h e h' :
  (m ≫= f) h = (Raise e, h') ->
  m h = (Raise e, h') \/ exists a h1, m h = (Ok a, h1) /\ f a h1 = (Raise e, h').
Proof.
  unfold mbind, M_bind. destruct (m h) as [[a|e1] h1]; [eauto | left; congruence].
Qed.

Lemma bind_step {A B} (m : M A) (f : A -> M B) h a h1 :
  m h = (Ok a, h1) -> (m ≫= f) h = f a h1.
Proof. unfold mbind, M_bind. intros ->. reflexivity. Qed.

Lemma for_cons {A} (x : A) (l : list A) (b : A -> M unit) h :
  for_ (x :: l) b h =
  match b x h with
  | (Ok _, h1) => for_ l b h1
  | (Raise e, h1) => (Raise e, h1)
  end.
Proof. reflexivity. Qed.

Lemma for_app {A} (l1 l2 : list A) (b : A -> M unit) h :
  for_ (l1 ++ l2) b h =
  match for_ l1 b h with
  | (Ok _, h1) => for_ l2 b h1
  | (Raise e, h1) => (Raise e, h1)
  end.
Proof.
  revert h. induction l1 as [|x l1 IH]; intros h; [reflexivity|].
  rewrite <- app_comm_cons, !for_cons.
  destruct (b x h) as [[[]|e] h1]; [apply IH | reflexivity].
Qed.

Lemma for_nested {A B} (l1 : list A) (l2 : list B) (b : A -> B -> M unit) h :
  for_ l1 (fun x => for_ l2 (b x)) h = for_ (x ← l1; y ← l2; [(x, y)]) (fun p => b p.1 p.2) h.
Proof.
  assert (E : forall x h0,
    for_ l2 (b x) h0 = for_ (y ← l2; [(x, y)]) (fun p => b p.1 p.2) h0).
  { intros x. induction l2 as [|y l2 IH2]; intros h0; [reflexivity|].
    change ((y :: l2) ≫= (fun y0 => [(x, y0)])) with ((x, y) :: (l2 ≫= (fun y0 => [(x, y0)]))).
    rewrite !for_cons. cbn [fst snd].
    destruct (b x y h0) as [[[]|e] h1]; [apply IH2 | reflexivity]. }
  revert h. induction l1 as [|x l1 IH]; intros h; [reflexivity|].
  change ((x :: l1) ≫= (fun x0 => l2 ≫= (fun y => [(x0, y)])))
    with ((l2 ≫= (fun y => [(x, y)])) ++ (l1 ≫= (fun x0 => l2 ≫= (fun y => [(x0, y)])))).
  rewrite for_cons, for_app, E.
  destruct (for_ _ _ h) as [[[]|e] h1]; [apply IH | reflexivity].
Qed.

Lemma for_guard {A} (P : A -> Prop) `{!forall x, Decision (P x)} (l : list A) (b : A -> M unit) h :
  for_ l (fun x => if decide (P x) then b x else mret tt) h = for_ (filter P l) b h.
Proof.
  revert h. induction l as [|x l IH]; intros h; [reflexivity|].
  rewrite filter_cons, for_cons. destruct (decide (P x)).
  - rewrite for_cons. destruct (b x h) as [[[]|e] h1]; [apply IH | reflexivity].
  - apply IH.
Qed.

Lemma assembly_loop_flat h :
  assembly_loop h = for_ ordered_pairs (fun p => body p.1 p.2) h.
Proof.
  unfold assembly_loop, iteration, ordered_pairs.
  rewrite (for_nested (seq 0 4) (seq 0 4)
             (fun i j => if decide (i ≠ j) then body i j else mret tt)).
  apply (for_guard (fun p : nat * nat => p.1 ≠ p.2)).
Qed.

Lemma ordered_pairs_eq :
  ordered_pairs = [(0,1); (0,2); (0,3); (1,0); (1,2); (1,3); (2,0); (2,1); (2,3); (3,0); (3,1); (3,2)].
Proof. reflexivity. Qed.

(** A loop that raises has completed a prefix of its passes and raised in
    the next one; the heap is the one that pass left. *)
Lemma for_raise {A} (l : list A) (b : A -> M unit) h e h' :
  for_ l b h = (Raise e, h') ->
  exists done x rest h1,
    l = done ++ x :: rest /\ for_ done b h = (Ok tt, h1) /\ b x h1 = (Raise e, h').
Proof.
  revert h. induction l as [|x l IH]; intros h H; [discriminate|].
  cbn [for_] in H. apply bind_raise in H as [H | ([] & h1 & Hx & H)].
  - exists [], x, l, h. auto.
  - destruct (IH _ H) as (done & y & rest & h2 & -> & Hd & Hy).
    exists (x :: done), y, rest, h2. split; [reflexivity|]. split; [|assumption].
    cbn [for_]. rewrite (bind_step _ _ _ _ _ Hx). exact Hd.
Qed.


(** *** Assignment to a slice *)

Lemma broadcast_length n v vs : broadcast n v = Some vs -> length vs = n.
Proof.
  unfold broadcast. destruct (decide (length v = n)) as [E|_].
  - intros [= <-]. exact E.
  - destruct v as [|x [|y v]]; try discriminate.
    intros [= <-]. apply length_replicate.
Qed.

Lemma assign_slice_ok a i j v a' :
  assign_slice a i j v = Ok a' ->
  exists vs, broadcast (length a) v = Some vs /\
             Forall (fun m => in_range m i j = true) a /\
             a' = zip_with (fun m x => set_entry m i j x) a vs.
Proof.
  unfold assign_slice. destruct (forallb _ a) eqn:Hr; [|discriminate].
  destruct (broadcast (length a) v) as [vs|]; [|discriminate].
  intros [= <-]. exists vs. split; [reflexivity|]. split; [|reflexivity].
  apply Forall_forall. intros m Hm. apply list_elem_of_In in Hm.
  rewrite forallb_forall in Hr. auto.
Qed.

Lemma assign_slice_length a i j v a' :
  assign_slice a i j v = Ok a' -> length a' = length a.
Proof.
  intros (vs & Hb & _ & ->)%assign_slice_ok.
  rewrite length_zip_with, (broadcast_length _ _ _ Hb). lia.
Qed.

Lemma entry_set_entry_ne m i j x r c :
  (r, c) ≠ (i, j) -> (row ← set_entry m i j x !! r; row !! c) = (row ← m !! r; row !! c).
Proof.
  intros Hne. unfold set_entry. destruct (decide (r = i)) as [->|Hr].
  - rewrite list_lookup_alter_eq. destruct (m !! i) as [row|]; [|reflexivity].
    cbn. apply list_lookup_insert_ne. congruence.
  - rewrite list_lookup_alter_ne by congruence. reflexivity.
Qed.

Lemma entry_set_entry_eq m i j x :
  in_range m i j = true -> (row ← set_entry m i j x !! i; row !! j) = Some x.
Proof.
  unfold in_range, set_entry. intros H%bool_decide_eq_true.
  rewrite list_lookup_alter_eq. destruct (m !! i) as [row|]; cbn in *.
  - apply list_lookup_insert_eq. apply lookup_lt_is_Some. exact H.
  - destruct H as [? [=]].
Qed.

Lemma assign_slice_entry_ne a i j v a' f r c :
  assign_slice a i j v = Ok a' -> (r, c) ≠ (i, j) -> entry a' f r c = entry a f r c.
Proof.
  intros (vs & Hb & _ & ->)%assign_slice_ok Hne. unfold entry.
  rewrite lookup_zip_with. destruct (a !! f) as [m|] eqn:Hm; [|reflexivity].
  cbn. destruct (vs !! f) as [x|] eqn:Hx; cbn.
  - apply entry_set_entry_ne. exact Hne.
  - apply lookup_ge_None in Hx. apply lookup_lt_Some in Hm.
    rewrite (broadcast_length _ _ _ Hb) in Hx. lia.
Qed.

Lemma assign_slice_entry_eq a i j v a' f :
  assign_slice a i j v = Ok a' -> f < length a ->
  entry a' f i j = bvalue (length a) v f /\ is_Some (entry a' f i j).
Proof.
  intros (vs & Hb & Hr & ->)%assign_slice_ok Hf. unfold entry, bvalue.
  rewrite lookup_zip_with, Hb.
  destruct (lookup_lt_is_Some_2 a f Hf) as [m Hm]. rewrite Hm. cbn.
  destruct (lookup_lt_is_Some_2 vs f) as [x Hx].
  { rewrite (broadcast_length _ _ _ Hb). exact Hf. }
  rewrite Hx. cbn.
  rewrite entry_set_entry_eq; [eauto|].
  rewrite Forall_forall in Hr. apply Hr. eapply list_elem_of_lookup_2. exact Hm.
Qed.


(** *** The statements of the loop body *)

Lemma assign_ok i j v h h' :
  assign i j v h = (Ok tt, h') ->
  exists nw a', splitter_cal h = Some nw /\ assign_slice (s nw) i j v = Ok a' /\
                h' = Heap (cal h) (Some (Net (frequency nw) a')) (trace h ++ [EvAssign i j]).
Proof.
  unfold assign. destruct (splitter_cal h) as [nw|]; [|discriminate].
  destruct (assign_slice (s nw) i j v) as [a'|e] eqn:E; [|discriminate].
  intros [= <-]. exists nw, a'. auto.
Qed.

Lemma assign_raise i j v h e h' : assign i j v h = (Raise e, h') -> h' = h.
Proof.
  unfold assign. destruct (splitter_cal h) as [nw|]; [|congruence].
  destruct (assign_slice (s nw) i j v) as [a'|e']; [discriminate | congruence].
Qed.

Lemma apply_cal_inv fwd rev h r h' :
  apply_cal fwd rev h = (r, h') ->
  (h' = h /\ stored_coefs h = None /\ exists e, r = Raise e) \/
  (exists k, stored_coefs h = Some k /\ r = correct k fwd rev /\
             h' = Heap (cal h) (splitter_cal h) (trace h ++ [EvApplyCal k fwd rev])).
Proof.
  unfold apply_cal, stored_coefs. destruct (cal h) as [c|]; cbn.
  - destruct (cal_coefs c) as [k|]; intros [= <- <-]; [right | left]; eauto.
  - intros [= <- <-]. left. eauto.
Qed.

Lemma Network_load_inv path h r h' :
  Network_load path h = (r, h') -> r = read_touchstone path /\ h' = h.
Proof. unfold Network_load, lift. intros [= <- <-]. auto. Qed.

(** A complete pass, statement by statement. *)
Lemma body_ok i j h h' :
  body i j h = (Ok tt, h') ->
  exists k fwd rev d nw a1 a2 a3 a4,
    read_touchstone (dut_raw_path (j + 1) (i + 1)) = Ok fwd /\
    read_touchstone (dut_raw_path (i + 1) (j + 1)) = Ok rev /\
    stored_coefs h = Some k /\
    correct k fwd rev = Ok d /\
    splitter_cal h = Some nw /\
    assign_slice (s nw) i i (slice2 d p0 p0) = Ok a1 /\
    assign_slice a1 j i (slice2 d p1 p0) = Ok a2 /\
    assign_slice a2 i j (slice2 d p0 p1) = Ok a3 /\
    assign_slice a3 j j (slice2 d p1 p1) = Ok a4 /\
    h' = Heap (cal h) (Some (Net (frequency nw) a4))
              (trace h ++ [EvApplyCal k fwd rev; EvAssign i i; EvAssign j i;
                           EvAssign i j; EvAssign j j]).
Proof.
  unfold body. intros H.
  apply bind_ok in H as (fwd & h1 & [Hf ->]%Network_load_inv & H).
  apply bind_ok in H as (rev & h2 & [Hr ->]%Network_load_inv & H).
  apply bind_ok in H as (d & h3 & Ha & H).
  apply apply_cal_inv in Ha as [(_ & _ & e & [=]) | (k & Hk & Hd & ->)].
  apply bind_ok in H as ([] & h4 & (nw & a1 & Hnw & H1 & ->)%assign_ok & H).
  apply bind_ok in H as ([] & h5 & (nw2 & a2 & [= <-] & H2 & ->)%assign_ok & H).
  apply bind_ok in H as ([] & h6 & (nw3 & a3 & [= <-] & H3 & ->)%assign_ok & H).
  apply assign_ok in H as (nw4 & a4 & [= <-] & H4 & ->).
  cbn [cal splitter_cal trace frequency s] in *.
  exists k, fwd, rev, d, nw, a1, a2, a3, a4.
  repeat (split; [first [assumption | congruence]|]).
  rewrite <- !app_assoc. reflexivity.
Qed.


Lemma assign_slice_entry a i j v a' f r c :
  assign_slice a i j v = Ok a' -> f < length a ->
  entry a' f r c = if decide ((i, j) = (r, c)) then bvalue (length a) v f else entry a f r c.
Proof.
  intros H Hf. destruct (decide ((i, j) = (r, c))) as [[= <- <-]|Hne].
  - apply (assign_slice_entry_eq _ _ _ _ _ _ H Hf).
  - apply (assign_slice_entry_ne _ _ _ _ _ _ _ _ H). congruence.
Qed.

Lemma assign_slice_bvalue a i j v a' f :
  assign_slice a i j v = Ok a' -> f < length a -> is_Some (bvalue (length a) v f).
Proof.
  intros H Hf. destruct (assign_slice_entry_eq _ _ _ _ _ _ H Hf) as [<- Hs]. exact Hs.
Qed.

(** What a complete pass leaves: the calibration as it was, its events
    appended to the trace, and every entry of the aggregate as [after_pass]
    computes it. *)
Lemma body_ok_view i j h h' k nw :
  body i j h = (Ok tt, h') ->
  stored_coefs h = Some k -> splitter_cal h = Some nw ->
  cal h' = cal h /\
  trace h' = trace h ++ pass_events k (i, j) /\
  (is_Some (pass_files (i, j)) /\
   forall ab f, f < length (s nw) -> is_Some (written k (length (s nw)) (i, j) ab f)) /\
  exists nw', splitter_cal h' = Some nw' /\ frequency nw' = frequency nw /\
              length (s nw') = length (s nw) /\
              forall f r c, f < length (s nw) ->
                entry (s nw') f r c
                = after_pass k (length (s nw)) f r c (entry (s nw) f r c) (i, j).
Proof.
  intros H Hk Hnw.
  apply body_ok in H as (k' & fwd & rev & d & nw0 & a1 & a2 & a3 & a4 &
                         Hf & Hr & Hk' & Hd & Hnw' & H1 & H2 & H3 & H4 & ->).
  assert (k' = k) as -> by congruence. assert (nw0 = nw) as -> by congruence.
  pose proof (assign_slice_length _ _ _ _ _ H1) as L1.
  pose proof (assign_slice_length _ _ _ _ _ H2) as L2.
  pose proof (assign_slice_length _ _ _ _ _ H3) as L3.
  pose proof (assign_slice_length _ _ _ _ _ H4) as L4.
  assert (Hdut : dut_cal_of k (i, j) = Ok d).
  { unfold dut_cal_of. cbn [fst snd]. rewrite Hf, Hr. exact Hd. }
  cbn [cal trace splitter_cal].
  split; [reflexivity|]. split.
  { unfold pass_events, pass_files. cbn [fst snd]. rewrite Hf, Hr. reflexivity. }
  split.
  { split; [unfold pass_files; cbn [fst snd]; rewrite Hf, Hr; eauto|].
    intros ab f Hlt. unfold written. rewrite Hdut.
    destruct ab as [[|] [|]]; cbn [fst snd].
    - exact (assign_slice_bvalue _ _ _ _ _ f H1 Hlt).
    - rewrite <- L1, <- L2. apply (assign_slice_bvalue _ _ _ _ _ f H3). congruence.
    - rewrite <- L1. apply (assign_slice_bvalue _ _ _ _ _ f H2). congruence.
    - rewrite <- L1, <- L2, <- L3. apply (assign_slice_bvalue _ _ _ _ _ f H4). congruence. }
  eexists. split; [reflexivity|]. cbn [frequency s].
  split; [reflexivity|]. split; [congruence|].
  intros f r c Hlt.
  rewrite (assign_slice_entry _ _ _ _ _ f r c H4) by congruence.
  rewrite (assign_slice_entry _ _ _ _ _ f r c H3) by congruence.
  rewrite (assign_slice_entry _ _ _ _ _ f r c H2) by congruence.
  rewrite (assign_slice_entry _ _ _ _ _ f r c H1) by congruence.
  unfold after_pass, targets, written. cbn [fold_left fst snd]. rewrite Hdut.
  rewrite L3, L2, L1. reflexivity.
Qed.

(** The same for a run of complete passes. *)
Lemma passes_ok ps h h' k nw :
  for_ ps (fun p => body p.1 p.2) h = (Ok tt, h') ->
  stored_coefs h = Some k -> splitter_cal h = Some nw ->
  cal h' = cal h /\
  trace h' = trace h ++ (ps ≫= pass_events k) /\
  Forall (fun p => is_Some (pass_files p) /\
                   forall ab f, f < length (s nw) ->
                                is_Some (written k (length (s nw)) p ab f)) ps /\
  exists nw', splitter_cal h' = Some nw' /\ frequency nw' = frequency nw /\
              length (s nw') = length (s nw) /\
              forall f r c, f < length (s nw) ->
                entry (s nw') f r c
                = after_passes k (length (s nw)) f r c (entry (s nw) f r c) ps.
Proof.
  revert h nw. induction ps as [|[i j] ps IH]; intros h nw H Hk Hnw.
  - injection H as <-. split; [reflexivity|]. split; [symmetry; apply app_nil_r|].
    split; [constructor|]. exists nw. auto.
  - rewrite for_cons in H. cbn [fst snd] in H.
    destruct (body i j h) as [[[]|e] h1] eqn:Hb; [|discriminate].
    destruct (body_ok_view _ _ _ _ _ _ Hb Hk Hnw)
      as (Hc1 & Ht1 & Hd1 & nw1 & Hnw1 & Hfr1 & Hl1 & He1).
    assert (Hk1 : stored_coefs h1 = Some k) by (unfold stored_coefs in *; congruence).
    destruct (IH _ _ H Hk1 Hnw1) as (Hc2 & Ht2 & Hd2 & nw2 & Hnw2 & Hfr2 & Hl2 & He2).
    split; [congruence|]. split.
    { rewrite Ht2, Ht1, <- app_assoc. reflexivity. }
    split; [constructor; [assumption | rewrite <- Hl1; assumption]|].
    exists nw2. split; [assumption|]. split; [congruence|]. split; [congruence|].
    intros f r c Hlt. rewrite He2 by lia. rewrite Hl1, He1 by assumption. reflexivity.
Qed.


(** *** Relations that every statement of a program keeps *)

Lemma keeps_ret {A} (R : relation heap) `{!Reflexive R} (a : A) : keeps R (mret a).
Proof. intros h r h' [= <- <-]. reflexivity. Qed.

Lemma keeps_lift {A} (R : relation heap) `{!Reflexive R} (o : outcome A) : keeps R (lift o).
Proof. intros h r h' [= <- <-]. reflexivity. Qed.

Lemma keeps_bind {A B} (R : relation heap) `{!Transitive R} (m : M A) (f : A -> M B) :
  keeps R m -> (forall a, keeps R (f a)) -> keeps R (m ≫= f).
Proof.
  intros Hm Hf h r h'. unfold mbind, M_bind.
  destruct (m h) as [[a|e] h1] eqn:E.
  - intros H. transitivity h1; [exact (Hm _ _ _ E) | exact (Hf _ _ _ _ H)].
  - intros [= <- <-]. exact (Hm _ _ _ E).
Qed.

Lemma keeps_for {A} (R : relation heap) `{!PreOrder R} (l : list A) (b : A -> M unit) :
  (forall x, keeps R (b x)) -> keeps R (for_ l b).
Proof.
  intros Hb. induction l as [|x l IH]; cbn [for_].
  - apply keeps_ret; apply _.
  - apply keeps_bind; [apply _ | apply Hb | intros _; exact IH].
Qed.

#[local] Instance unchanged_outside_preorder T : PreOrder (unchanged_outside T).
Proof.
  split.
  - intros h. split; [reflexivity|]. destruct (splitter_cal h) as [nw|]; [|reflexivity].
    exists nw. auto.
  - intros h1 h2 h3 [Hc1 H1] [Hc2 H2]. split; [congruence|].
    destruct (splitter_cal h1) as [nw1|].
    + destruct H1 as (nw2 & E2 & Hf1 & Hl1 & He1). rewrite E2 in H2.
      destruct H2 as (nw3 & E3 & Hf2 & Hl2 & He2).
      exists nw3. split; [assumption|]. split; [congruence|]. split; [congruence|].
      intros f r c Hn. rewrite He2, He1 by assumption. reflexivity.
    + rewrite H1 in H2. exact H2.
Qed.

Lemma keeps_unchanged_Network_load T path : keeps (unchanged_outside T) (Network_load path).
Proof. apply keeps_lift; apply _. Qed.

Lemma keeps_unchanged_apply_cal T fwd rev : keeps (unchanged_outside T) (apply_cal fwd rev).
Proof.
  intros h r h' [(-> & _)|(k & _ & _ & ->)]%apply_cal_inv; [reflexivity|].
  split; [reflexivity|]. cbn [splitter_cal].
  destruct (splitter_cal h) as [nw|]; [|reflexivity]. exists nw. auto.
Qed.

Lemma keeps_unchanged_assign (T : nat -> nat -> Prop) i j v :
  T i j -> keeps (unchanged_outside T) (assign i j v).
Proof.
  intros HT h r h'. destruct r as [[]|e].
  - intros (nw & a' & Hnw & Ha & ->)%assign_ok. split; [reflexivity|].
    rewrite Hnw. cbn [splitter_cal]. eexists. split; [reflexivity|]. cbn [frequency s].
    split; [reflexivity|]. split; [exact (assign_slice_length _ _ _ _ _ Ha)|].
    intros f r c Hn. apply (assign_slice_entry_ne _ _ _ _ _ _ _ _ Ha).
    intros [= -> ->]. contradiction.
  - intros ->%assign_raise. reflexivity.
Qed.

Lemma keeps_unchanged_body i j : keeps (unchanged_outside (pair_block i j)) (body i j).
Proof.
  unfold body.
  repeat (first
    [ apply keeps_bind; [apply _ | | intros ?]
    | apply keeps_unchanged_Network_load
    | apply keeps_unchanged_apply_cal
    | apply keeps_unchanged_assign; unfold pair_block; tauto ]).
Qed.

Lemma keeps_unchanged_iteration i j : keeps (unchanged_outside (pair_block i j)) (iteration i j).
Proof.
  unfold iteration. destruct (decide (i ≠ j)).
  - apply keeps_unchanged_body.
  - apply keeps_ret; apply _.
Qed.


(** *** Last write wins *)

Lemma fold_left_last_match {A B} (P : A -> Prop) `{!forall x, Decision (P x)}
  (g : A -> B) (l : list A) (old : B) :
  fold_left (fun acc x => if decide (P x) then g x else acc) l old
  = from_option g old (last (filter P l)).
Proof.
  revert old. induction l as [|x l IH]; intros old; [reflexivity|].
  cbn [fold_left]. rewrite IH, filter_cons.
  destruct (decide (P x)) as [Hx|Hx]; [|reflexivity].
  destruct (filter P l) as [|y l'] eqn:E; [reflexivity|].
  change (last (x :: y :: l')) with (last (y :: l')).
  destruct (last (y :: l')) eqn:El; [reflexivity|].
  apply last_None in El. discriminate.
Qed.

Lemma after_passes_all_targets k n f r c old ps :
  after_passes k n f r c old ps
  = fold_left (fun acc pt => if decide (pt.2.1 = (r, c)) then written k n pt.1 pt.2.2 f else acc)
              (all_targets ps) old.
Proof.
  revert old. induction ps as [|p ps IH]; intros old; [reflexivity|].
  unfold after_passes, all_targets in *. cbn [fold_left].
  change ((p :: ps) ≫= (fun p0 => (fun t => (p0, t)) <$> targets p0))
    with (((fun t => (p, t)) <$> targets p) ++ (ps ≫= (fun p0 => (fun t => (p0, t)) <$> targets p0))).
  rewrite fold_left_app, IH. reflexivity.
Qed.

(** After a run of passes an entry holds what the last assignment to it
    stored, or its old value when no pass assigns to it. *)
Lemma after_passes_last_writer k n f r c old ps :
  after_passes k n f r c old ps
  = from_option (fun pt => written k n pt.1 pt.2.2 f) old (last_writer ps r c).
Proof.
  rewrite after_passes_all_targets. unfold last_writer.
  apply (fold_left_last_match (fun pt : (nat * nat) * (nat * nat * (port2 * port2)) => pt.2.1 = (r, c))).
Qed.

Lemma elem_of_ordered_pairs i j : (i, j) ∈ ordered_pairs <-> i < 4 /\ j < 4 /\ i ≠ j.
Proof.
  unfold ordered_pairs. rewrite list_elem_of_filter, list_elem_of_bind. cbn [fst snd]. split.
  - intros (Hne & x & Hy & Hx). apply list_elem_of_bind in Hy as (y & Hy & Hyy).
    apply list_elem_of_singleton in Hy as [= -> ->].
    apply elem_of_seq in Hx, Hyy. lia.
  - intros (Hi & Hj & Hne). split; [exact Hne|]. exists i. split.
    + apply list_elem_of_bind. exists j. split; [apply list_elem_of_singleton; reflexivity|].
      apply elem_of_seq. lia.
    + apply elem_of_seq. lia.
Qed.

Lemma pass_files_defined k p n ab f :
  is_Some (written k n p ab f) -> is_Some (pass_files p).
Proof.
  unfold written, dut_cal_of, pass_files.
  destruct (read_touchstone _) as [fwd|e]; [|intros [? [=]]].
  destruct (read_touchstone _) as [rev|e]; [eauto | intros [? [=]]].
Qed.

Lemma assigned_pass_events k p :
  is_Some (pass_files p) -> assigned (pass_events k p) = (fun t => t.1) <$> targets p.
Proof.
  intros [[fwd rev] E]. unfold pass_events. rewrite E. reflexivity.
Qed.

Lemma calls_of_pass_events k p fwd rev :
  pass_files p = Some (fwd, rev) -> calls_of (pass_events k p) = [(k, fwd, rev)].
Proof.
  intros E. unfold pass_events. rewrite E. reflexivity.
Qed.

(** In a complete pass of a pair of two different ports, the diagonal entry
    of port [i] is assigned once when [i] is one of the two, and not at all
    otherwise. *)
Lemma pass_events_diag_count k p i :
  p.1 ≠ p.2 -> is_Some (pass_files p) ->
  length (filter (fun t => t = (i, i)) (assigned (pass_events k p)))
  = if decide (contains i p) then 1 else 0.
Proof.
  intros Hne Hp. rewrite (assigned_pass_events _ _ Hp).
  destruct p as [a b]. unfold contains, targets. cbn [fst snd fmap list_fmap] in *.
  rewrite !filter_cons, filter_nil.
  repeat (destruct (decide _) as [?|?]); simplify_eq; cbn [length];
    first [reflexivity | exfalso; tauto | exfalso; lia | idtac].
  exfalso. match goal with H : _ \/ _ |- _ => destruct H as [<-|<-]; congruence end.
Qed.

(** *** The assembly loop as a whole *)

Lemma assembly_loop_ok h h' k nw :
  assembly_loop h = (Ok tt, h') ->
  stored_coefs h = Some k -> splitter_cal h = Some nw ->
  cal h' = cal h /\
  trace h' = trace h ++ (ordered_pairs ≫= pass_events k) /\
  Forall (fun p => is_Some (pass_files p) /\
                   forall ab f, f < length (s nw) ->
                                is_Some (written k (length (s nw)) p ab f)) ordered_pairs /\
  exists nw', splitter_cal h' = Some nw' /\ frequency nw' = frequency nw /\
              length (s nw') = length (s nw) /\
              forall f r c, f < length (s nw) ->
                entry (s nw') f r c
                = from_option (fun pt => written k (length (s nw)) pt.1 pt.2.2 f)
                              (entry (s nw) f r c) (last_writer ordered_pairs r c).
Proof.
  rewrite assembly_loop_flat. intros H Hk Hnw.
  destruct (passes_ok _ _ _ _ _ H Hk Hnw) as (Hc & Ht & Hw & nw' & Hnw' & Hfr & Hl & He).
  repeat (split; [assumption|]).
  exists nw'. repeat (split; [assumption|]).
  intros f r c Hf. rewrite He by assumption. apply after_passes_last_writer.
Qed.

(** C3: one pass of the loop for the pair (i, j), whether it completes or
    raises, changes no entry of the aggregate outside the four positions
    (i,i), (j,i), (i,j), (j,j): every entry whose row or whose column is
    neither i nor j is the same afterwards, at every frequency index, and
    the sweep and the number of frequency points are the same too. *)
Theorem iteration_touches_only_pair_block
  (i j : nat) (h h' : heap) (r : outcome unit) (nw : Network) :
  i ≠ j ->
  splitter_cal h = Some nw ->
  iteration i j h = (r, h') ->
  exists nw',
    splitter_cal h' = Some nw' /\ frequency nw' = frequency nw /\
    length (s nw') = length (s nw) /\
    forall f k l, (k ≠ i /\ k ≠ j) \/ (l ≠ i /\ l ≠ j) ->
                  entry (s nw') f k l = entry (s nw) f k l.
Proof.
  intros _ Hnw H.
  destruct (keeps_unchanged_iteration i j _ _ _ H) as [_ Hu]. rewrite Hnw in Hu.
  destruct Hu as (nw' & E & Hf & Hl & He).
  exists nw'. repeat (split; [assumption|]).
  intros f k l Hout. apply He. unfold pair_block. tauto.
Qed.

(** C1: when the loop completes, its trace is the trace of the twelve
    passes in loop order; in the pass of a pair the diagonal entry of port i
    is assigned exactly once when the pair contains i and never otherwise;
    and afterwards s[f, i, i] holds what the last pass in loop order whose
    pair contains i stored there ([dut_cal.s[:, 0, 0]] when i is its source,
    [dut_cal.s[:, 1, 1]] when i is its receiver). *)
Theorem diagonal_last_write_wins
  (h h' : heap) (k : coefs) (nw : Network) (i f : nat) :
  stored_coefs h = Some k ->
  splitter_cal h = Some nw ->
  assembly_loop h = (Ok tt, h') ->
  i < 4 -> f < length (s nw) ->
  trace h' = trace h ++ (ordered_pairs ≫= pass_events k) /\
  (forall p, p ∈ ordered_pairs ->
     length (filter (fun t => t = (i, i)) (assigned (pass_events k p)))
     = if decide (contains i p) then 1 else 0) /\
  exists nw' p,
    splitter_cal h' = Some nw' /\
    last (filter (contains i) ordered_pairs) = Some p /\
    entry (s nw') f i i
    = written k (length (s nw)) p (if decide (p.1 = i) then (p0, p0) else (p1, p1)) f /\
    is_Some (entry (s nw') f i i).
Proof.
  intros Hk Hnw H Hi Hf.
  destruct (assembly_loop_ok _ _ _ _ H Hk Hnw) as (_ & Ht & Hw & nw' & Hnw' & _ & _ & He).
  rewrite Forall_forall in Hw.
  split; [exact Ht|]. split.
  { intros [a b] Hp. apply pass_events_diag_count.
    - apply elem_of_ordered_pairs in Hp. cbn. lia.
    - apply Hw; assumption. }
  assert (Hlast : exists p ab,
    p ∈ ordered_pairs /\
    last (filter (contains i) ordered_pairs) = Some p /\
    last_writer ordered_pairs i i = Some (p, (i, i, ab)) /\
    ab = if decide (p.1 = i) then (p0, p0) else (p1, p1)).
  { destruct i as [|[|[|[|]]]]; [| | | |lia].
    - exists (3, 0), (p1, p1). split; [apply elem_of_ordered_pairs; lia|]. repeat split.
    - exists (3, 1), (p1, p1). split; [apply elem_of_ordered_pairs; lia|]. repeat split.
    - exists (3, 2), (p1, p1). split; [apply elem_of_ordered_pairs; lia|]. repeat split.
    - exists (3, 2), (p0, p0). split; [apply elem_of_ordered_pairs; lia|]. repeat split. }
  destruct Hlast as (p & ab & Hp & Hl & Hlw & ->).
  exists nw', p. split; [exact Hnw'|]. split; [exact Hl|].
  rewrite He, Hlw by assumption. cbn [from_option fst snd].
  split; [reflexivity|]. apply Hw; assumption.
Qed.

Lemma calls_of_passes k ps :
  Forall (fun p => is_Some (pass_files p)) ps ->
  Some <$> calls_of (ps ≫= pass_events k)
  = (fun p => (fun fr => (k, fr.1, fr.2)) <$> pass_files p) <$> ps.
Proof.
  induction 1 as [|p ps [[fwd rev] Hp] _ IH]; [reflexivity|].
  change ((p :: ps) ≫= pass_events k) with (pass_events k p ++ (ps ≫= pass_events k)).
  unfold calls_of in *. rewrite omap_app, fmap_app, IH, fmap_cons.
  fold (calls_of (pass_events k p)). rewrite (calls_of_pass_events _ _ _ _ Hp), Hp.
  reflexivity.
Qed.

Lemma assigned_passes k ps :
  Forall (fun p => is_Some (pass_files p)) ps ->
  assigned (ps ≫= pass_events k) = (fun pt => pt.2.1) <$> all_targets ps.
Proof.
  induction 1 as [|p ps Hp _ IH]; [reflexivity|].
  change ((p :: ps) ≫= pass_events k) with (pass_events k p ++ (ps ≫= pass_events k)).
  unfold all_targets.
  change ((p :: ps) ≫= (fun p0 => (fun t => (p0, t)) <$> targets p0))
    with (((fun t => (p, t)) <$> targets p) ++ all_targets ps).
  unfold assigned in *. rewrite omap_app, fmap_app, IH.
  fold (assigned (pass_events k p)). rewrite (assigned_pass_events _ _ Hp).
  rewrite <- list_fmap_compose. reflexivity.
Qed.

Lemma last_writer_defined r c :
  r < 4 -> c < 4 ->
  exists p ab, p ∈ ordered_pairs /\ last_writer ordered_pairs r c = Some (p, (r, c, ab)).
Proof.
  intros Hr Hc.
  destruct r as [|[|[|[|]]]]; [| | | |lia]; (destruct c as [|[|[|[|]]]]; [| | | |lia]);
    (eexists (_, _), _; split; [|reflexivity]); apply elem_of_ordered_pairs; lia.
Qed.

(** C9: when the loop completes, [apply_cal] has been called exactly twelve
    times, once for each ordered pair (i, j) of different ports of the
    4-port and in loop order, each time on the two files of that pair; every
    one of the sixteen positions of the aggregate has been assigned, and at
    every frequency index every entry holds a value that some pass stored
    there, not the zero it was created with. *)
Theorem assembly_loop_twelve_calls_fill_matrix
  (h h' : heap) (k : coefs) (nw : Network) :
  stored_coefs h = Some k ->
  splitter_cal h = Some nw ->
  assembly_loop h = (Ok tt, h') ->
  (length ordered_pairs = 12 /\ NoDup ordered_pairs /\
   forall i j, (i, j) ∈ ordered_pairs <-> i < 4 /\ j < 4 /\ i ≠ j) /\
  exists evs,
    trace h' = trace h ++ evs /\
    Some <$> calls_of evs
    = (fun p => (fun fr => (k, fr.1, fr.2)) <$> pass_files p) <$> ordered_pairs /\
    length (calls_of evs) = 12 /\
    (forall r c, r < 4 -> c < 4 -> (r, c) ∈ assigned evs) /\
    exists nw',
      splitter_cal h' = Some nw' /\ frequency nw' = frequency nw /\
      length (s nw') = length (s nw) /\
      forall f r c, f < length (s nw) -> r < 4 -> c < 4 ->
        exists p ab, p ∈ ordered_pairs /\
                     entry (s nw') f r c = written k (length (s nw)) p ab f /\
                     is_Some (entry (s nw') f r c).
Proof.
  intros Hk Hnw H.
  destruct (assembly_loop_ok _ _ _ _ H Hk Hnw) as (_ & Ht & Hw & nw' & Hnw' & Hfr & Hl & He).
  assert (Hfiles : Forall (fun p => is_Some (pass_files p)) ordered_pairs).
  { eapply Forall_impl; [exact Hw|]. intros p [Hp _]. exact Hp. }
  split.
  { split; [reflexivity|]. split; [|apply elem_of_ordered_pairs].
    rewrite ordered_pairs_eq. apply (bool_decide_unpack _). vm_compute. exact I. }
  exists (ordered_pairs ≫= pass_events k). split; [exact Ht|].
  pose proof (calls_of_passes k _ Hfiles) as Hcalls.
  split; [exact Hcalls|]. split.
  { apply (f_equal length) in Hcalls. rewrite !length_fmap in Hcalls. exact Hcalls. }
  split.
  { intros r c Hr Hc. rewrite (assigned_passes k _ Hfiles).
    destruct (last_writer_defined r c Hr Hc) as (p & ab & _ & Hlw).
    unfold last_writer in Hlw. apply last_Some_elem_of in Hlw.
    apply list_elem_of_filter in Hlw as [_ Hin].
    apply list_elem_of_fmap. eexists. split; [|exact Hin]. reflexivity. }
  exists nw'. repeat (split; [assumption|]).
  intros f r c Hf Hr Hc.
  destruct (last_writer_defined r c Hr Hc) as (p & ab & Hp & Hlw).
  exists p, ab. split; [exact Hp|]. rewrite He, Hlw by assumption. cbn [from_option fst snd].
  split; [reflexivity|].
  rewrite Forall_forall in Hw. apply Hw; assumption.
Qed.







(** *** A pass that raises *)

Lemma wf4_zeros n : wf4 (zeros n 4 4).
Proof.
  unfold wf4, zeros. apply Forall_replicate. split; [reflexivity|].
  repeat constructor.
Qed.

Lemma wf4_in_range a i j :
  wf4 a -> i < 4 -> j < 4 -> forallb (fun m => in_range m i j) a = true.
Proof.
  intros Hwf Hi Hj. apply forallb_forall. intros m Hm%list_elem_of_In.
  unfold wf4 in Hwf. rewrite Forall_forall in Hwf. destruct (Hwf m Hm) as [Hl Hr].
  unfold in_range. apply bool_decide_eq_true.
  destruct (lookup_lt_is_Some_2 m i) as [row Hrow]; [lia|]. rewrite Hrow. cbn.
  apply lookup_lt_is_Some_2. rewrite Forall_forall in Hr.
  rewrite (Hr row) by (eapply list_elem_of_lookup_2; exact Hrow). exact Hj.
Qed.

Lemma wf4_assign_slice a i j v a' : wf4 a -> assign_slice a i j v = Ok a' -> wf4 a'.
Proof.
  intros Hwf (vs & _ & _ & ->)%assign_slice_ok. unfold wf4 in *.
  apply (Forall_zip_with_fst _ _ _ _ _ Hwf). apply Forall_true.
  intros x m [Hl Hr]. unfold set_entry. rewrite length_alter. split; [exact Hl|].
  apply Forall_alter; [exact Hr|]. intros row _ Hrow. rewrite length_insert. exact Hrow.
Qed.

Lemma broadcast_same_length n (v w : list complex) :
  length v = length w -> is_Some (broadcast n v) -> is_Some (broadcast n w).
Proof.
  unfold broadcast. intros Hl.
  destruct (decide (length v = n)), (decide (length w = n)); try lia; [eauto|].
  destruct v as [|x [|y v]]; intros [? [=]].
  destruct w as [|x' [|y' w]]; try discriminate. eauto.
Qed.

Lemma assign_succeeds i j v c fr a tr :
  wf4 a -> i < 4 -> j < 4 ->
  is_Some (broadcast (length a) v) ->
  exists h', assign i j v (Heap c (Some (Net fr a)) tr) = (Ok tt, h').
Proof.
  intros Hwf Hi Hj [vs Hvs]. unfold assign, assign_slice. cbn [splitter_cal s].
  rewrite (wf4_in_range _ _ _ Hwf Hi Hj), Hvs. eauto.
Qed.

Lemma assign_cannot_raise i j v c fr a tr e h' :
  wf4 a -> i < 4 -> j < 4 ->
  is_Some (broadcast (length a) v) ->
  assign i j v (Heap c (Some (Net fr a)) tr) = (Raise e, h') -> False.
Proof.
  intros Hwf Hi Hj Hb H.
  destruct (assign_succeeds i j v c fr a tr Hwf Hi Hj Hb) as [h1 E]. congruence.
Qed.

(** A pass on a 4 x 4 aggregate that raises has assigned nothing: it
    raised while loading, in [apply_cal], or in its first assignment. *)
Lemma body_raise_untouched i j h e h' nw :
  splitter_cal h = Some nw -> wf4 (s nw) -> i < 4 -> j < 4 ->
  body i j h = (Raise e, h') ->
  splitter_cal h' = splitter_cal h /\ cal h' = cal h /\
  exists tail, trace h' = trace h ++ tail /\ assigned tail = [].
Proof.
  intros Hnw Hwf Hi Hj. unfold body. intros H.
  assert (Hsame : splitter_cal h = splitter_cal h /\ cal h = cal h /\
                  exists tail, trace h = trace h ++ tail /\ assigned tail = []).
  { split; [reflexivity|]. split; [reflexivity|]. exists []. rewrite app_nil_r. auto. }
  apply bind_raise in H as [[_ ->]%Network_load_inv | (fwd & h1 & [_ ->]%Network_load_inv & H)];
    [exact Hsame|].
  apply bind_raise in H as [[_ ->]%Network_load_inv | (rev & h2 & [_ ->]%Network_load_inv & H)];
    [exact Hsame|].
  assert (Hcall : forall h3 k, h3 = Heap (cal h) (splitter_cal h) (trace h ++ [EvApplyCal k fwd rev]) ->
            splitter_cal h3 = splitter_cal h /\ cal h3 = cal h /\
            exists tail, trace h3 = trace h ++ tail /\ assigned tail = []).
  { intros h3 k ->. split; [reflexivity|]. split; [reflexivity|]. eexists. split; reflexivity. }
  apply bind_raise in H as [Ha | (d & h3 & Ha & H)].
  { apply apply_cal_inv in Ha as [(-> & _)|(k & _ & _ & Hh)]; [exact Hsame | eauto]. }
  apply apply_cal_inv in Ha as [(_ & _ & e' & [=]) | (k & _ & Hd & Hh3)].
  apply bind_raise in H as [Ha1 | ([] & h4 & Ha1 & H)].
  { apply assign_raise in Ha1 as ->. eauto. }
  exfalso.
  apply assign_ok in Ha1 as (nw1 & a1 & Hnw1 & H1 & ->).
  assert (nw1 = nw) as -> by (subst h3; cbn in Hnw1; congruence).
  pose proof (assign_slice_length _ _ _ _ _ H1) as L1.
  pose proof (wf4_assign_slice _ _ _ _ _ Hwf H1) as W1.
  apply assign_slice_ok in H1 as (vs & Hb & _).
  assert (Hbc : forall a b, is_Some (broadcast (length (s nw)) (slice2 d a b))).
  { intros a b. apply (broadcast_same_length _ (slice2 d p0 p0)); [|eauto].
    unfold slice2. rewrite !length_fmap. reflexivity. }
  apply bind_raise in H as [Ha2 | ([] & h5 & Ha2 & H)].
  { refine (assign_cannot_raise _ _ _ _ _ _ _ _ _ W1 Hj Hi _ Ha2).
    rewrite L1. apply Hbc. }
  apply assign_ok in Ha2 as (nw2 & a2 & [= <-] & H2 & ->). cbn [s frequency] in *.
  pose proof (assign_slice_length _ _ _ _ _ H2) as L2.
  pose proof (wf4_assign_slice _ _ _ _ _ W1 H2) as W2.
  apply bind_raise in H as [Ha3 | ([] & h6 & Ha3 & H)].
  { refine (assign_cannot_raise _ _ _ _ _ _ _ _ _ W2 Hi Hj _ Ha3).
    rewrite L2, L1. apply Hbc. }
  apply assign_ok in Ha3 as (nw3 & a3 & [= <-] & H3 & ->). cbn [s frequency] in *.
  pose proof (assign_slice_length _ _ _ _ _ H3) as L3.
  pose proof (wf4_assign_slice _ _ _ _ _ W2 H3) as W3.
  refine (assign_cannot_raise _ _ _ _ _ _ _ _ _ W3 Hj Hj _ H).
  rewrite L3, L2, L1. apply Hbc.
Qed.

#[local] Instance wf_kept_preorder : PreOrder wf_kept.
Proof.
  split.
  - intros h nw Hnw Hwf. eauto.
  - intros h1 h2 h3 H1 H2 nw Hnw Hwf.
    destruct (H1 _ Hnw Hwf) as (nw2 & Hnw2 & Hwf2). eauto.
Qed.

Lemma keeps_wf_body i j : keeps wf_kept (body i j).
Proof.
  assert (Hassign : forall a b v, keeps wf_kept (assign a b v)).
  { intros a b v h r h'. destruct r as [[]|e].
    - intros (nw & a' & Hnw & Ha & ->)%assign_ok nw0 Hnw0 Hwf.
      assert (nw0 = nw) as -> by congruence.
      eexists. split; [reflexivity|]. exact (wf4_assign_slice _ _ _ _ _ Hwf Ha).
    - intros ->%assign_raise. reflexivity. }
  assert (Happly : forall fwd rev, keeps wf_kept (apply_cal fwd rev)).
  { intros fwd rev h r h' [(-> & _)|(k & _ & _ & ->)]%apply_cal_inv; [reflexivity|].
    intros nw Hnw Hwf. eauto. }
  unfold body.
  repeat (first
    [ apply keeps_bind; [apply _ | | intros ?]
    | apply keeps_lift; apply _
    | apply Happly
    | apply Hassign ]).
Qed.

(** What the calibration cell leaves behind. *)
Lemma calibration_cell_inv r h0 :
  calibration_cell empty_heap = (r, h0) ->
  splitter_cal h0 = None /\ trace h0 = [] /\
  (forall c, cal h0 = Some c ->
     exists short_raw open_raw match_raw thru_raw,
       read_touchstone cal_short_path = Ok short_raw /\
       read_touchstone cal_open_path = Ok open_raw /\
       read_touchstone cal_match_path = Ok match_raw /\
       read_touchstone cal_thru_path = Ok thru_raw /\
       ideals c = (let line := Media (frequency2 short_raw) 50 in
                   [media_short line; media_open line; media_match line; media_thru line]) /\
       measured c = [short_raw; open_raw; match_raw; thru_raw]) /\
  (forall short_raw, r = Ok short_raw ->
     read_touchstone cal_short_path = Ok short_raw /\
     exists k, stored_coefs h0 = Some k).
Proof.
  unfold calibration_cell, Network_load, lift, mbind, M_bind.
  destruct (read_touchstone cal_short_path) as [sr|e1] eqn:E1;
    [|intros [= <- <-]; repeat split; discriminate].
  destruct (read_touchstone cal_open_path) as [op|e2] eqn:E2;
    [|intros [= <- <-]; repeat split; discriminate].
  destruct (read_touchstone cal_match_path) as [ma|e3] eqn:E3;
    [|intros [= <- <-]; repeat split; discriminate].
  destruct (read_touchstone cal_thru_path) as [th|e4] eqn:E4;
    [|intros [= <- <-]; repeat split; discriminate].
  unfold TwoPortOnePath, cal_run, mret, M_ret. cbn [cal splitter_cal trace ideals measured].
  destruct (solve _ _) as [k|e5] eqn:E5; intros [= <- <-]; cbn [cal splitter_cal trace].
  - split; [reflexivity|]. split; [reflexivity|]. split.
    + intros c [= <-]. exists sr, op, ma, th. repeat split; assumption.
    + intros ? [= <-]. split; [reflexivity|]. exists k. reflexivity.
  - split; [reflexivity|]. split; [reflexivity|]. split.
    + intros c [= <-]. exists sr, op, ma, th. repeat split; assumption.
    + discriminate.
Qed.

(** C4, as the notebook does it: an error surfaces unchanged and nothing
    runs after it.  Raised in the calibration cell, it leaves no aggregate.
    Raised in the loop, in the pass for some pair [p], it leaves the
    aggregate exactly as the completed passes before [p] filled it: the pass
    for [p] has assigned nothing, the passes after it have not run, and
    what the earlier passes stored is still there. *)
Theorem notebook_error_keeps_completed_passes (e : error) (h' : heap) :
  notebook empty_heap = (Raise e, h') ->
  (calibration_cell empty_heap = (Raise e, h') /\ splitter_cal h' = None) \/
  exists short_raw h0 k done p rest h1 nw' tail,
    calibration_cell empty_heap = (Ok short_raw, h0) /\
    stored_coefs h0 = Some k /\
    ordered_pairs = done ++ p :: rest /\
    for_ done (fun p => body p.1 p.2) (new_splitter_cal short_raw h0).2 = (Ok tt, h1) /\
    body p.1 p.2 h1 = (Raise e, h') /\
    splitter_cal h' = splitter_cal h1 /\
    splitter_cal h' = Some nw' /\
    trace h' = (done ≫= pass_events k) ++ tail /\ assigned tail = [] /\
    forall f r c, f < length (frequency2 short_raw) ->
      entry (s nw') f r c
      = from_option (fun pt => written k (length (frequency2 short_raw)) pt.1 pt.2.2 f)
                    (entry (zeros (length (frequency2 short_raw)) 4 4) f r c)
                    (last_writer done r c).
Proof.
  unfold notebook. intros H.
  apply bind_raise in H as [H | (short_raw & h0 & Hc & H)].
  { left. split; [exact H|]. apply (calibration_cell_inv _ _ H). }
  right.
  destruct (calibration_cell_inv _ _ Hc) as (Hs0 & Ht0 & _ & Hok).
  destruct (Hok _ eq_refl) as (_ & k & Hk).
  unfold assembly_cell in H.
  apply bind_raise in H as [H | ([] & h2 & Hn & H)]; [discriminate H|].
  assert (h2 = (new_splitter_cal short_raw h0).2) as -> by (rewrite Hn; reflexivity).
  clear Hn. set (n := length (frequency2 short_raw)) in *.
  set (hs := (new_splitter_cal short_raw h0).2) in *.
  assert (Hnw : splitter_cal hs = Some (Net (frequency2 short_raw) (zeros n 4 4))) by reflexivity.
  assert (Hks : stored_coefs hs = Some k) by exact Hk.
  rewrite assembly_loop_flat in H.
  apply for_raise in H as (done & p & rest & h1 & Hsplit & Hdone & Hp).
  destruct (passes_ok _ _ _ _ _ Hdone Hks Hnw) as (_ & Ht & _ & nw1 & Hnw1 & _ & Hl & He).
  assert (Hwf1 : wf4 (s nw1)).
  { destruct (keeps_for wf_kept done _ (fun q => keeps_wf_body q.1 q.2) _ _ _ Hdone _ Hnw)
      as (nw2 & Hnw2 & Hwf2); [apply wf4_zeros|]. congruence. }
  assert (Hin : p ∈ ordered_pairs).
  { rewrite Hsplit. apply elem_of_app. right. apply elem_of_cons. left. reflexivity. }
  destruct p as [a b]. apply elem_of_ordered_pairs in Hin as (Ha & Hb & _).
  destruct (body_raise_untouched _ _ _ _ _ _ Hnw1 Hwf1 Ha Hb Hp) as (Hsp & _ & tail & Htl & Has).
  exists short_raw, h0, k, done, (a, b), rest, h1, nw1, tail.
  repeat (split; [first [assumption | congruence]|]).
  split.
  { rewrite Htl, Ht. subst hs. cbn [new_splitter_cal snd trace]. rewrite Ht0. reflexivity. }
  split; [exact Has|].
  intros f r c Hf. cbn [s] in He, Hl. unfold zeros in He at 1 2. rewrite length_replicate in He.
  rewrite He by exact Hf. apply after_passes_last_writer.
Qed.


(** *** Frequency sweeps *)

Lemma bind_inv {A B} (m : M A) (f : A -> M B) h r h' :
  (m ≫= f) h = (r, h') ->
  (exists e, m h = (Raise e, h') /\ r = Raise e) \/
  exists a h1, m h = (Ok a, h1) /\ f a h1 = (r, h').
Proof.
  unfold mbind, M_bind. destruct (m h) as [[a|e] h1]; [eauto|].
  intros [= <- <-]. eauto.
Qed.


#[local] Instance calls_on_files_preorder : PreOrder calls_on_files.
Proof.
  split.
  - intros h. exists []. split; [symmetry; apply app_nil_r | constructor].
  - intros h1 h2 h3 (evs1 & Ht1 & H1) (evs2 & Ht2 & H2). exists (evs1 ++ evs2). split.
    + rewrite Ht2, Ht1, app_assoc. reflexivity.
    + unfold calls_of. rewrite omap_app. apply Forall_app. auto.
Qed.


Lemma keeps_unchanged_assembly_loop : keeps (unchanged_outside (fun _ _ => True)) assembly_loop.
Proof.
  unfold assembly_loop.
  apply keeps_for; [apply _|]. intros i. apply keeps_for; [apply _|]. intros j.
  unfold iteration. destruct (decide (i ≠ j)); [|apply keeps_ret; apply _].
  unfold body.
  repeat (first
    [ apply keeps_bind; [apply _ | | intros ?]
    | apply keeps_unchanged_Network_load
    | apply keeps_unchanged_apply_cal
    | apply keeps_unchanged_assign; exact I ]).
Qed.



End Facts.

(** ** The theorems on the example measurement sets *)

Lemma diagonal_last_write_wins_witness :
  trace bench_done = trace bench_ready ++ (ordered_pairs ≫= @pass_events bench bench_coefs) /\
  (forall p, p ∈ ordered_pairs ->
     length (filter (fun t => t = (0, 0)) (assigned (@pass_events bench bench_coefs p)))
     = if decide (contains 0 p) then 1 else 0) /\
  exists nw' p,
    splitter_cal bench_done = Some nw' /\
    last (filter (contains 0) ordered_pairs) = Some p /\
    entry (s nw') 0 0 0
    = @written bench bench_coefs (length (s bench_empty)) p
               (if decide (p.1 = 0) then (p0, p0) else (p1, p1)) 0 /\
    is_Some (entry (s nw') 0 0 0).
Proof.
  apply (@diagonal_last_write_wins bench bench_ready bench_done bench_coefs bench_empty 0 0).
  - vm_compute. reflexivity.
  - vm_compute. reflexivity.
  - vm_compute. reflexivity.
  - lia.
  - vm_compute. lia.
Defined.

Lemma iteration_touches_only_pair_block_witness :
  exists nw',
    splitter_cal bench_first_pass = Some nw' /\ frequency nw' = frequency bench_empty /\
    length (s nw') = length (s bench_empty) /\
    forall f k l, (k ≠ 0 /\ k ≠ 1) \/ (l ≠ 0 /\ l ≠ 1) ->
                  entry (s nw') f k l = entry (s bench_empty) f k l.
Proof.
  apply (@iteration_touches_only_pair_block bench 0 1 bench_ready bench_first_pass
           (Ok tt) bench_empty).
  - lia.
  - vm_compute. reflexivity.
  - vm_compute. reflexivity.
Defined.

Lemma assembly_loop_twelve_calls_fill_matrix_witness :
  (length ordered_pairs = 12 /\ NoDup ordered_pairs /\
   forall i j, (i, j) ∈ ordered_pairs <-> i < 4 /\ j < 4 /\ i ≠ j) /\
  exists evs,
    trace bench_done = trace bench_ready ++ evs /\
    Some <$> calls_of evs
    = (fun p => (fun fr => (bench_coefs, fr.1, fr.2)) <$> @pass_files bench p) <$> ordered_pairs /\
    length (calls_of evs) = 12 /\
    (forall r c, r < 4 -> c < 4 -> (r, c) ∈ assigned evs) /\
    exists nw',
      splitter_cal bench_done = Some nw' /\ frequency nw' = frequency bench_empty /\
      length (s nw') = length (s bench_empty) /\
      forall f r c, f < length (s bench_empty) -> r < 4 -> c < 4 ->
        exists p ab, p ∈ ordered_pairs /\
                     entry (s nw') f r c
                     = @written bench bench_coefs (length (s bench_empty)) p ab f /\
                     is_Some (entry (s nw') f r c).
Proof.
  apply (@assembly_loop_twelve_calls_fill_matrix bench bench_ready bench_done
           bench_coefs bench_empty).
  - vm_compute. reflexivity.
  - vm_compute. reflexivity.
  - vm_compute. reflexivity.
Defined.



Lemma notebook_error_keeps_completed_passes_witness :
  (@calibration_cell bench_missing empty_heap = (Raise missing_error, missing_heap) /\
   splitter_cal missing_heap = None) \/
  exists short_raw h0 k done p rest h1 nw' tail,
    @calibration_cell bench_missing empty_heap = (Ok short_raw, h0) /\
    stored_coefs h0 = Some k /\
    ordered_pairs = done ++ p :: rest /\
    for_ done (fun p => body p.1 p.2) (new_splitter_cal short_raw h0).2 = (Ok tt, h1) /\
    body p.1 p.2 h1 = (Raise missing_error, missing_heap) /\
    splitter_cal missing_heap = splitter_cal h1 /\
    splitter_cal missing_heap = Some nw' /\
    trace missing_heap = (done ≫= @pass_events bench_missing k) ++ tail /\ assigned tail = [] /\
    forall f r c, f < length (frequency2 short_raw) ->
      entry (s nw') f r c
      = from_option (fun pt => @written bench_missing k (length (frequency2 short_raw)) pt.1 pt.2.2 f)
                    (entry (zeros (length (frequency2 short_raw)) 4 4) f r c)
                    (last_writer done r c).
Proof.
  apply (@notebook_error_keeps_completed_passes bench_missing missing_error missing_heap).
  vm_compute. reflexivity.
Defined.

(** The notebook on [bench_missing] raises in its second pass and leaves the
    aggregate with the corrected S21 of the first pass in s[0, 1, 0]. *)
Lemma notebook_leaves_partial_results :
  (exists nw,
     @notebook bench_missing empty_heap = (Raise missing_error, missing_heap) /\
     splitter_cal missing_heap = Some nw /\
     entry (s nw) 0 1 0 = Some (Cplx 21 0)) /\
  ~ @no_partial_results bench_missing.
Proof.
  assert (Hrun : @notebook bench_missing empty_heap = (Raise missing_error, missing_heap))
    by (vm_compute; reflexivity).
  split.
  - eexists. split; [exact Hrun|]. split; vm_compute; reflexivity.
  - intros H.
    assert (E : Cplx 21 0 = czero); [|discriminate E].
    eapply (H _ _ Hrun _ 0 1 0); vm_compute; reflexivity.
Qed.




(** ** How the assembly loop ends *)

Section OutcomeFacts.
Context `{Lib : Library}.

Local Abbreviation heap := (heap_of coefs).

#[local] Existing Instance wf_kept_preorder.
#[local] Existing Instance unchanged_outside_preorder.

Lemma broadcast_fits n (v : list complex) :
  is_Some (broadcast n v) <-> length v = n \/ length v = 1.
Proof.
  unfold broadcast. destruct (decide (length v = n)) as [E|E].
  - split; eauto.
  - destruct v as [|x [|y v]]; cbn in *.
    + split; [intros [? [=]] | intros [?|?]; [lia | discriminate]].
    + split; eauto.
    + split; [intros [? [=]] | intros [?|?]; [lia | discriminate]].
Qed.

Lemma length_slice2 d a b : length (slice2 d a b) = length (s2 d).
Proof. unfold slice2. apply length_fmap. Qed.

Lemma body_outcome i j (h : heap) k nw :
  stored_coefs h = Some k -> splitter_cal h = Some nw -> wf4 (s nw) -> i < 4 -> j < 4 ->
  (body i j h).1 = match pass_error k (length (s nw)) (i, j) with
                   | Some e => Raise e
                   | None => Ok tt
                   end.
Proof.
  intros Hk Hnw Hwf Hi Hj.
  destruct (body i j h) as [[[]|e] h'] eqn:E; cbn [fst].
  - apply body_ok in E
      as (k' & fwd & rev & d & nw0 & a1 & a2 & a3 & a4 & Hf & Hr & Hk' & Hd & Hnw0 & H1 & _).
    assert (k' = k) as -> by congruence. assert (nw0 = nw) as -> by congruence.
    apply assign_slice_ok in H1 as (vs & Hb & _).
    unfold pass_error, dut_cal_of. cbn [fst snd]. rewrite Hf, Hr, Hd.
    rewrite decide_True; [reflexivity|].
    rewrite <- (length_slice2 d p0 p0). apply broadcast_fits. eauto.
  - unfold body in E. unfold pass_error, dut_cal_of. cbn [fst snd].
    apply bind_raise in E as [[Hf _]%Network_load_inv | (fwd & h1 & [Hf ->]%Network_load_inv & E)].
    { rewrite <- Hf. reflexivity. }
    rewrite <- Hf.
    apply bind_raise in E as [[Hr _]%Network_load_inv | (rev & h2 & [Hr ->]%Network_load_inv & E)].
    { rewrite <- Hr. reflexivity. }
    rewrite <- Hr.
    apply bind_raise in E as [Ha | (d & h3 & Ha & E)].
    { apply apply_cal_inv in Ha as [(_ & Hn & _)|(k' & Hk' & Hd & _)]; [congruence|].
      assert (k' = k) as -> by congruence. rewrite <- Hd. reflexivity. }
    apply apply_cal_inv in Ha as [(_ & _ & e' & [=]) | (k' & Hk' & Hd & ->)].
    assert (k' = k) as -> by congruence. rewrite <- Hd.
    assert (Hfit : forall n a b, is_Some (broadcast n (slice2 d a b))
                                 <-> length (s2 d) = n \/ length (s2 d) = 1).
    { intros n a b. rewrite broadcast_fits, length_slice2. reflexivity. }
    rewrite Hnw in E.
    apply bind_raise in E as [Ha1 | ([] & h4 & Ha1 & E)].
    { unfold assign, assign_slice in Ha1. cbn [splitter_cal s] in Ha1.
      rewrite (wf4_in_range _ _ _ Hwf Hi Hi) in Ha1.
      destruct (broadcast (length (s nw)) (slice2 d p0 p0)) as [vs|] eqn:Hb; [discriminate Ha1|].
      injection Ha1 as <- _. rewrite decide_False; [reflexivity|].
      rewrite <- (Hfit _ p0 p0), Hb. intros [? [=]]. }
    exfalso.
    apply assign_ok in Ha1 as (nw1 & a1 & [= <-] & H1 & ->). cbn [s frequency cal] in *.
    pose proof (assign_slice_length _ _ _ _ _ H1) as L1.
    pose proof (wf4_assign_slice _ _ _ _ _ Hwf H1) as W1.
    apply assign_slice_ok in H1 as (vs & Hb & _).
    assert (Hbc : forall a b, is_Some (broadcast (length (s nw)) (slice2 d a b))).
    { intros a b. apply Hfit. apply (Hfit _ p0 p0). eauto. }
    apply bind_raise in E as [Ha2 | ([] & h5 & Ha2 & E)].
    { refine (assign_cannot_raise _ _ _ _ _ _ _ _ _ W1 Hj Hi _ Ha2).
      rewrite L1. apply Hbc. }
    apply assign_ok in Ha2 as (nw2 & a2 & [= <-] & H2 & ->). cbn [s frequency cal] in *.
    pose proof (assign_slice_length _ _ _ _ _ H2) as L2.
    pose proof (wf4_assign_slice _ _ _ _ _ W1 H2) as W2.
    apply bind_raise in E as [Ha3 | ([] & h6 & Ha3 & E)].
    { refine (assign_cannot_raise _ _ _ _ _ _ _ _ _ W2 Hi Hj _ Ha3).
      rewrite L2, L1. apply Hbc. }
    apply assign_ok in Ha3 as (nw3 & a3 & [= <-] & H3 & ->). cbn [s frequency cal] in *.
    pose proof (assign_slice_length _ _ _ _ _ H3) as L3.
    pose proof (wf4_assign_slice _ _ _ _ _ W2 H3) as W3.
    refine (assign_cannot_raise _ _ _ _ _ _ _ _ _ W3 Hj Hj _ E).
    rewrite L3, L2, L1. apply Hbc.
Qed.

(** What a run of complete passes keeps and leaves. *)
Lemma passes_final ps (h h' : heap) k nw :
  for_ ps (fun p => body p.1 p.2) h = (Ok tt, h') ->
  stored_coefs h = Some k -> splitter_cal h = Some nw -> wf4 (s nw) ->
  cal h' = cal h /\ stored_coefs h' = Some k /\
  exists nw', splitter_cal h' = Some nw' /\ frequency nw' = frequency nw /\
              length (s nw') = length (s nw) /\ wf4 (s nw') /\
              forall f r c, f < length (s nw) ->
                entry (s nw') f r c
                = from_option (fun pt => written k (length (s nw)) pt.1 pt.2.2 f)
                              (entry (s nw) f r c) (last_writer ps r c).
Proof.
  intros H Hk Hnw Hwf.
  destruct (passes_ok _ _ _ _ _ H Hk Hnw) as (Hc & _ & _ & nw' & Hnw' & Hfr & Hl & He).
  split; [exact Hc|]. split; [unfold stored_coefs in *; rewrite Hc; exact Hk|].
  exists nw'. repeat (split; [assumption|]). split.
  - destruct (keeps_for wf_kept ps _ (fun q => keeps_wf_body q.1 q.2) _ _ _ H _ Hnw Hwf)
      as (nw2 & Hnw2 & Hwf2). congruence.
  - intros f r c Hf. rewrite (He f r c Hf). apply after_passes_last_writer.
Qed.

Lemma first_error_cons k F p ps :
  first_error k F (p :: ps)
  = match pass_error k F p with
    | Some e => Raise e
    | None => first_error k F ps
    end.
Proof. unfold first_error. cbn [omap list_omap]. destruct (pass_error k F p); reflexivity. Qed.

Lemma passes_outcome ps : forall (h : heap) k nw,
  stored_coefs h = Some k -> splitter_cal h = Some nw -> wf4 (s nw) ->
  Forall (fun p => p.1 < 4 /\ p.2 < 4) ps ->
  (for_ ps (fun p => body p.1 p.2) h).1 = first_error k (length (s nw)) ps.
Proof.
  induction ps as [|p ps IH]; intros h k nw Hk Hnw Hwf Hps; [reflexivity|].
  apply Forall_cons in Hps as [[Hi Hj] Hps].
  rewrite for_cons, first_error_cons.
  pose proof (body_outcome p.1 p.2 h k nw Hk Hnw Hwf Hi Hj) as Hb.
  rewrite <- (surjective_pairing p) in Hb.
  destruct (body p.1 p.2 h) as [[[]|e] h1] eqn:E; cbn [fst] in Hb.
  - destruct (pass_error k (length (s nw)) p); [discriminate Hb|].
    destruct (passes_final [p] h h1 k nw) as (_ & Hk1 & nw1 & Hnw1 & _ & Hl1 & Hwf1 & _);
      try assumption.
    { rewrite for_cons, E. reflexivity. }
    rewrite <- Hl1. apply IH; assumption.
  - destruct (pass_error k (length (s nw)) p); [|discriminate Hb]. exact Hb.
Qed.

Lemma first_error_ok k F ps :
  first_error k F ps = Ok tt
  <-> Forall (fun p => exists d, dut_cal_of k p = Ok d /\
                                 (length (s2 d) = F \/ length (s2 d) = 1)) ps.
Proof.
  induction ps as [|p ps IH]; [split; [constructor | reflexivity]|].
  rewrite first_error_cons, Forall_cons, <- IH. unfold pass_error.
  destruct (dut_cal_of k p) as [d|e].
  - destruct (decide _) as [Hd|Hd].
    + split; [eauto | intros [_ ?]; assumption].
    + split; [discriminate | intros [(d' & [= <-] & ?) _]; contradiction].
  - split; [discriminate | intros [(d' & [=] & _) _]].
Qed.

Lemma first_error_raise k F ps e :
  first_error k F ps = Raise e ->
  exists p, p ∈ ps /\
    (dut_cal_of k p = Raise e \/
     exists d, dut_cal_of k p = Ok d /\ e = ValueError /\
               length (s2 d) ≠ F /\ length (s2 d) ≠ 1).
Proof.
  induction ps as [|p ps IH]; [discriminate|].
  rewrite first_error_cons. unfold pass_error at 1.
  destruct (dut_cal_of k p) as [d|e'] eqn:E.
  - destruct (decide _) as [Hd|Hd].
    + intros (q & Hq & H)%IH. exists q. split; [right; exact Hq | exact H].
    + intros [= <-]. exists p. split; [left|]. right. exists d. repeat split; auto.
  - intros [= <-]. exists p. split; [left | left; exact E].
Qed.

(** Two 4 x 4 arrays with the same entries are the same array. *)
Lemma wf4_ext (a b : sarray) :
  wf4 a -> wf4 b -> length a = length b ->
  (forall f r c, f < length a -> r < 4 -> c < 4 -> entry a f r c = entry b f r c) ->
  a = b.
Proof.
  intros Ha Hb Hl He. unfold wf4 in Ha, Hb. rewrite Forall_lookup in Ha, Hb.
  apply list_eq. intros f.
  destruct (decide (f < length a)) as [Hf|Hf];
    [|rewrite !lookup_ge_None_2 by lia; reflexivity].
  destruct (lookup_lt_is_Some_2 a f Hf) as [ma Hma].
  destruct (lookup_lt_is_Some_2 b f ltac:(lia)) as [mb Hmb].
  rewrite Hma, Hmb. f_equal.
  destruct (Ha _ _ Hma) as [La Ra]. destruct (Hb _ _ Hmb) as [Lb Rb].
  rewrite Forall_lookup in Ra, Rb.
  apply list_eq. intros r.
  destruct (decide (r < 4)) as [Hr|Hr];
    [|rewrite !lookup_ge_None_2 by lia; reflexivity].
  destruct (lookup_lt_is_Some_2 ma r ltac:(lia)) as [ra Hra].
  destruct (lookup_lt_is_Some_2 mb r ltac:(lia)) as [rb Hrb].
  rewrite Hra, Hrb. f_equal.
  apply list_eq. intros c.
  destruct (decide (c < 4)) as [Hc|Hc].
  - specialize (He f r c Hf Hr Hc). unfold entry in He.
    rewrite Hma, Hmb in He. cbn in He. rewrite Hra, Hrb in He. exact He.
  - pose proof (Ra _ _ Hra). pose proof (Rb _ _ Hrb).
    rewrite !lookup_ge_None_2 by lia. reflexivity.
Qed.

(** Two runs of passes that end with the same last writers leave the same
    array, whatever the arrays held before. *)
Lemma passes_same_array ps1 ps2 (h1 h2 h1' h2' : heap) k nw1 nw2 nw1' nw2' :
  stored_coefs h1 = Some k -> stored_coefs h2 = Some k ->
  splitter_cal h1 = Some nw1 -> splitter_cal h2 = Some nw2 ->
  wf4 (s nw1) -> wf4 (s nw2) -> length (s nw1) = length (s nw2) ->
  for_ ps1 (fun p => body p.1 p.2) h1 = (Ok tt, h1') ->
  for_ ps2 (fun p => body p.1 p.2) h2 = (Ok tt, h2') ->
  splitter_cal h1' = Some nw1' -> splitter_cal h2' = Some nw2' ->
  (forall r c, r < 4 -> c < 4 ->
     is_Some (last_writer ps1 r c) /\ last_writer ps2 r c = last_writer ps1 r c) ->
  s nw2' = s nw1'.
Proof.
  intros Hk1 Hk2 Hnw1 Hnw2 W1 W2 Hl H1 H2 Hn1 Hn2 Hlast.
  destruct (passes_final _ _ _ _ _ H1 Hk1 Hnw1 W1) as (_ & _ & m1 & Hm1 & _ & L1 & Wf1 & E1).
  destruct (passes_final _ _ _ _ _ H2 Hk2 Hnw2 W2) as (_ & _ & m2 & Hm2 & _ & L2 & Wf2 & E2).
  assert (m1 = nw1') as -> by congruence. assert (m2 = nw2') as -> by congruence.
  apply wf4_ext; [assumption | assumption | lia |].
  intros f r c Hf Hr Hc. rewrite E2, E1 by lia.
  destruct (Hlast r c Hr Hc) as [[pt Hpt] ->]. rewrite Hpt, Hl. reflexivity.
Qed.

Lemma ordered_pairs_in_range : Forall (fun p : nat * nat => p.1 < 4 /\ p.2 < 4) ordered_pairs.
Proof.
  apply Forall_forall. intros [i j] H%elem_of_ordered_pairs. cbn. lia.
Qed.

Lemma keeps_wf_assembly_loop : keeps wf_kept assembly_loop.
Proof.
  unfold assembly_loop.
  apply keeps_for; [apply _|]. intros i. apply keeps_for; [apply _|]. intros j.
  unfold iteration. destruct (decide (i ≠ j)); [apply keeps_wf_body | apply keeps_ret; apply _].
Qed.

Lemma calibration_cell_raise e (h : heap) :
  calibration_cell empty_heap = (Raise e, h) ->
  (exists path, read_touchstone path = Raise e) \/ (exists ids meas, solve ids meas = Raise e).
Proof.
  unfold calibration_cell. intros H.
  apply bind_raise in H as [[Hr _]%Network_load_inv | (sr & h1 & [_ ->]%Network_load_inv & H)];
    [left; eauto|].
  apply bind_raise in H as [[Hr _]%Network_load_inv | (op & h2 & [_ ->]%Network_load_inv & H)];
    [left; eauto|].
  apply bind_raise in H as [[Hr _]%Network_load_inv | (ma & h3 & [_ ->]%Network_load_inv & H)];
    [left; eauto|].
  apply bind_raise in H as [[Hr _]%Network_load_inv | (th & h4 & [_ ->]%Network_load_inv & H)];
    [left; eauto|].
  apply bind_raise in H as [H | ([] & h5 & Ht & H)]; [discriminate H|].
  injection Ht as <-.
  apply bind_raise in H as [H | ([] & h6 & _ & H)]; [|discriminate H].
  unfold cal_run in H. cbn [cal ideals measured] in H.
  match type of H with
  | context [solve ?ids ?meas] => destruct (solve ids meas) as [k|e'] eqn:Hs
  end; [discriminate H|].
  injection H as <- _. right. eauto.
Qed.

Lemma descending_last_writer r c :
  r < 4 -> c < 4 ->
  is_Some (last_writer ordered_pairs r c) /\
  last_writer (filter (fun p => p.2 < p.1) ordered_pairs) r c = last_writer ordered_pairs r c.
Proof.
  intros Hr Hc.
  destruct r as [|[|[|[|r]]]]; try lia; destruct c as [|[|[|[|c]]]]; try lia;
    (split; [eexists|]; vm_compute; reflexivity).
Qed.

(** X10.  How the assembly loop ends is decided by the files, the correction and
    the number of frequency points alone.  Started with solved error terms
    on a 4 x 4 aggregate, the loop completes exactly when for each of the
    twelve pairs both files load and the correction returns a 2-port with as
    many frequency points as the aggregate, or with one; otherwise it raises
    the error of the first pass that fails: that of its load or correction,
    or numpy's ValueError for a corrected 2-port of another length.  No index
    is ever out of range. *)
Theorem assembly_loop_outcome
  (h h' : heap) (r : outcome unit) (k : coefs) (nw : Network) :
  stored_coefs h = Some k ->
  splitter_cal h = Some nw ->
  wf4 (s nw) ->
  assembly_loop h = (r, h') ->
  r = first_error k (length (s nw)) ordered_pairs /\
  (r = Ok tt <->
   Forall (fun p => exists d, dut_cal_of k p = Ok d /\
                              (length (s2 d) = length (s nw) \/ length (s2 d) = 1))
          ordered_pairs) /\
  (forall e, r = Raise e ->
     exists p, p ∈ ordered_pairs /\
       (dut_cal_of k p = Raise e \/
        exists d, dut_cal_of k p = Ok d /\ e = ValueError /\
                  length (s2 d) ≠ length (s nw) /\ length (s2 d) ≠ 1)).
Proof.
  intros Hk Hnw Hwf H. rewrite assembly_loop_flat in H.
  pose proof (passes_outcome ordered_pairs h k nw Hk Hnw Hwf ordered_pairs_in_range) as Ho.
  rewrite H in Ho. cbn [fst] in Ho. subst r.
  split; [reflexivity|]. split; [apply first_error_ok|].
  intros e. apply first_error_raise.
Qed.

(** X11.  A notebook that raises, raises an error of a library call (reading a
    file, solving the error terms, correcting a pair) or the ValueError of
    assigning a corrected 2-port whose number of frequency points is neither
    that of [short_raw] nor one.  It has no other failure of its own: no
    name is unbound, no calibration is applied unsolved, no index is out of
    range. *)
Theorem notebook_error_sources (e : error) (h' : heap) :
  notebook empty_heap = (Raise e, h') ->
  (exists path, read_touchstone path = Raise e) \/
  (exists ids meas, solve ids meas = Raise e) \/
  (exists k fwd rev, correct k fwd rev = Raise e) \/
  (e = ValueError /\
   exists short_raw k p d,
     read_touchstone cal_short_path = Ok short_raw /\
     p ∈ ordered_pairs /\ dut_cal_of k p = Ok d /\
     length (s2 d) ≠ length (frequency2 short_raw) /\ length (s2 d) ≠ 1).
Proof.
  unfold notebook. intros H.
  apply bind_raise in H as [H | (short_raw & h0 & Hc & H)].
  { destruct (calibration_cell_raise _ _ H) as [Hr|Hs]; auto. }
  destruct (calibration_cell_inv _ _ Hc) as (_ & _ & _ & Hok).
  destruct (Hok _ eq_refl) as (Hsr & k & Hk).
  unfold assembly_cell in H.
  apply bind_raise in H as [H | ([] & hs & [= <-] & H)]; [discriminate H|].
  rewrite assembly_loop_flat in H.
  match type of H with
  | for_ _ _ ?hs = _ =>
    pose proof (passes_outcome ordered_pairs hs k
                  (Net (frequency2 short_raw) (zeros (length (frequency2 short_raw)) 4 4))
                  Hk eq_refl (wf4_zeros _) ordered_pairs_in_range) as Ho
  end.
  rewrite H in Ho. cbn [fst s] in Ho. unfold zeros in Ho. rewrite length_replicate in Ho.
  symmetry in Ho. apply first_error_raise in Ho as ([i j] & Hp & [Hd | (d & Hd & -> & Hn & H1)]).
  - unfold dut_cal_of in Hd. cbn [fst snd] in Hd.
    destruct (read_touchstone (dut_raw_path (j + 1) (i + 1))) as [fwd|e1] eqn:Hf.
    + destruct (read_touchstone (dut_raw_path (i + 1) (j + 1))) as [rev|e2] eqn:Hr.
      * right. right. left. eauto.
      * injection Hd as ->. left. eauto.
    + injection Hd as ->. left. eauto.
  - right. right. right. split; [reflexivity|].
    exists short_raw, k, (i, j), d. auto.
Qed.

(** X12.  The zeros the aggregate is created with are immaterial.  Two runs of
    the loop with the same error terms, on 4 x 4 aggregates with the same
    number of frequency points but any contents, go the same way: when one
    completes so does the other, and both leave the same array. *)
Theorem final_array_independent_of_initial_contents
  (h1 h2 h1' : heap) (k : coefs) (nw1 nw2 : Network) :
  stored_coefs h1 = Some k -> stored_coefs h2 = Some k ->
  splitter_cal h1 = Some nw1 -> splitter_cal h2 = Some nw2 ->
  wf4 (s nw1) -> wf4 (s nw2) -> length (s nw1) = length (s nw2) ->
  assembly_loop h1 = (Ok tt, h1') ->
  exists h2' nw1' nw2',
    assembly_loop h2 = (Ok tt, h2') /\
    splitter_cal h1' = Some nw1' /\ splitter_cal h2' = Some nw2' /\
    s nw2' = s nw1'.
Proof.
  intros Hk1 Hk2 Hnw1 Hnw2 W1 W2 Hl H1. rewrite assembly_loop_flat in H1.
  pose proof (passes_outcome ordered_pairs h1 k nw1 Hk1 Hnw1 W1 ordered_pairs_in_range) as O1.
  pose proof (passes_outcome ordered_pairs h2 k nw2 Hk2 Hnw2 W2 ordered_pairs_in_range) as O2.
  rewrite H1 in O1. cbn [fst] in O1. rewrite <- Hl, <- O1 in O2.
  destruct (for_ ordered_pairs (fun p => body p.1 p.2) h2) as [r2 h2'] eqn:H2.
  cbn [fst] in O2. subst r2.
  destruct (passes_final _ _ _ _ _ H1 Hk1 Hnw1 W1) as (_ & _ & nw1' & Hn1 & _).
  destruct (passes_final _ _ _ _ _ H2 Hk2 Hnw2 W2) as (_ & _ & nw2' & Hn2 & _).
  exists h2', nw1', nw2'. rewrite assembly_loop_flat.
  repeat (split; [assumption|]).
  apply (passes_same_array ordered_pairs ordered_pairs h1 h2 h1' h2' k nw1 nw2); try assumption.
  intros r c Hr Hc. split; [apply (descending_last_writer r c Hr Hc) | reflexivity].
Qed.

(** X13.  Running the loop again on the aggregate it has filled changes nothing:
    the second run completes and leaves the same aggregate and the same
    calibration. *)
Theorem assembly_loop_rerun_same_aggregate
  (h h' : heap) (k : coefs) (nw : Network) :
  stored_coefs h = Some k ->
  splitter_cal h = Some nw ->
  wf4 (s nw) ->
  assembly_loop h = (Ok tt, h') ->
  exists h'', assembly_loop h' = (Ok tt, h'') /\
              splitter_cal h'' = splitter_cal h' /\ cal h'' = cal h'.
Proof.
  intros Hk Hnw Hwf H. rewrite assembly_loop_flat in H.
  destruct (passes_final _ _ _ _ _ H Hk Hnw Hwf) as (Hc & Hk' & nw' & Hnw' & Hfr & Hl & Hwf' & _).
  pose proof (passes_outcome ordered_pairs h k nw Hk Hnw Hwf ordered_pairs_in_range) as O1.
  pose proof (passes_outcome ordered_pairs h' k nw' Hk' Hnw' Hwf' ordered_pairs_in_range) as O2.
  rewrite H in O1. cbn [fst] in O1. rewrite Hl, <- O1 in O2.
  destruct (for_ ordered_pairs (fun p => body p.1 p.2) h') as [r2 h''] eqn:H2.
  cbn [fst] in O2. subst r2.
  destruct (passes_final _ _ _ _ _ H2 Hk' Hnw' Hwf')
    as (Hc2 & _ & nw'' & Hnw'' & Hfr2 & _).
  exists h''. rewrite assembly_loop_flat. split; [exact H2|]. split; [|exact Hc2].
  rewrite Hnw', Hnw''. f_equal.
  assert (Hs : s nw'' = s nw').
  { apply (passes_same_array ordered_pairs ordered_pairs h h' h' h'' k nw nw'); auto.
    intros r c Hr Hc'. split; [apply (descending_last_writer r c Hr Hc') | reflexivity]. }
  destruct nw'' as [fr2 a2], nw' as [fr1 a1]. cbn [s frequency] in Hs, Hfr, Hfr2.
  clear - Hs Hfr Hfr2. congruence.
Qed.

(** X14.  Half of the passes leave no mark.  Every assignment of a pass with
    [i_src < i_recv] is overwritten later, so a loop over the six pairs with
    [i_src > i_recv] alone completes whenever the full loop does, and leaves
    the same aggregate. *)
Theorem ascending_passes_leave_no_mark
  (h h' : heap) (k : coefs) (nw : Network) :
  stored_coefs h = Some k ->
  splitter_cal h = Some nw ->
  wf4 (s nw) ->
  assembly_loop h = (Ok tt, h') ->
  filter (fun p => p.2 < p.1) ordered_pairs = [(1, 0); (2, 0); (2, 1); (3, 0); (3, 1); (3, 2)] /\
  exists h'',
    for_ (filter (fun p => p.2 < p.1) ordered_pairs) (fun p => body p.1 p.2) h = (Ok tt, h'') /\
    splitter_cal h'' = splitter_cal h' /\ cal h'' = cal h'.
Proof.
  intros Hk Hnw Hwf H. split; [vm_compute; reflexivity|].
  rewrite assembly_loop_flat in H.
  set (ps := filter (fun p => p.2 < p.1) ordered_pairs).
  assert (Hin : forall p, p ∈ ps -> p ∈ ordered_pairs).
  { intros p Hp. apply list_elem_of_filter in Hp as [_ Hp]. exact Hp. }
  assert (Hr : Forall (fun p : nat * nat => p.1 < 4 /\ p.2 < 4) ps).
  { apply Forall_forall. intros p Hp%Hin.
    pose proof ordered_pairs_in_range as Ho. rewrite Forall_forall in Ho. auto. }
  pose proof (passes_outcome ordered_pairs h k nw Hk Hnw Hwf ordered_pairs_in_range) as O1.
  pose proof (passes_outcome ps h k nw Hk Hnw Hwf Hr) as O2.
  rewrite H in O1. cbn [fst] in O1. symmetry in O1. apply first_error_ok in O1.
  assert (E : first_error k (length (s nw)) ps = Ok tt).
  { apply first_error_ok. apply Forall_forall. intros p Hp%Hin.
    rewrite Forall_forall in O1. auto. }
  rewrite E in O2.
  destruct (for_ ps (fun p => body p.1 p.2) h) as [r2 h''] eqn:H2.
  cbn [fst] in O2. subst r2.
  destruct (passes_final _ _ _ _ _ H Hk Hnw Hwf) as (Hc & _ & nw' & Hnw' & Hfr & _).
  destruct (passes_final _ _ _ _ _ H2 Hk Hnw Hwf) as (Hc2 & _ & nw'' & Hnw'' & Hfr2 & _).
  exists h''. split; [reflexivity|]. split; [|congruence].
  rewrite Hnw', Hnw''. f_equal.
  assert (Hs : s nw'' = s nw').
  { apply (passes_same_array ordered_pairs ps h h h' h'' k nw nw); auto.
    intros r c Hr' Hc'. apply (descending_last_writer r c Hr' Hc'). }
  destruct nw'' as [fr2 a2], nw' as [fr1 a1]. cbn [s frequency] in Hs, Hfr, Hfr2.
  clear - Hs Hfr Hfr2. congruence.
Qed.

(** X15.  A completed loop has made 48 slice assignments for the 16 entries:
    six to each diagonal position and two to each off-diagonal position. *)
Theorem assembly_loop_assignment_counts
  (h h' : heap) (k : coefs) (nw : Network) :
  stored_coefs h = Some k ->
  splitter_cal h = Some nw ->
  assembly_loop h = (Ok tt, h') ->
  exists evs,
    trace h' = trace h ++ evs /\
    length (assigned evs) = 48 /\
    forall r c, r < 4 -> c < 4 ->
      length (filter (fun t => t = (r, c)) (assigned evs)) = if decide (r = c) then 6 else 2.
Proof.
  intros Hk Hnw H.
  destruct (assembly_loop_ok _ _ _ _ H Hk Hnw) as (_ & Ht & Hf & _).
  exists (ordered_pairs ≫= pass_events k). split; [exact Ht|].
  rewrite assigned_passes
    by (eapply Forall_impl; [exact Hf|]; intros p [Hp _]; exact Hp).
  split; [vm_compute; reflexivity|].
  intros r c Hr Hc.
  destruct r as [|[|[|[|r]]]]; try lia; destruct c as [|[|[|[|c]]]]; try lia;
    vm_compute; reflexivity.
Qed.

(** X16.  However the notebook ends, an aggregate that exists is a well-formed
    4-port: one 4 x 4 matrix per frequency point of its sweep. *)
Theorem notebook_aggregate_shape (r : outcome unit) (h' : heap) (nw : Network) :
  notebook empty_heap = (r, h') ->
  splitter_cal h' = Some nw ->
  wf4 (s nw) /\ length (s nw) = length (frequency nw).
Proof.
  unfold notebook. intros H Hnw.
  apply bind_inv in H as [(e & Hc & ->) | (sr & h0 & Hc & H)].
  { destruct (calibration_cell_inv _ _ Hc) as (Hs & _). congruence. }
  unfold assembly_cell in H.
  apply bind_inv in H as [(e & [=] & _) | ([] & hs & [= <-] & H)].
  destruct (keeps_wf_assembly_loop _ _ _ H _ eq_refl (wf4_zeros _)) as (nw1 & Hnw1 & Hwf1).
  destruct (keeps_unchanged_assembly_loop _ _ _ H) as [_ Hu].
  cbn [splitter_cal] in Hu. destruct Hu as (nw2 & Hnw2 & Hfr & Hl & _).
  assert (nw1 = nw) as -> by congruence. assert (nw2 = nw) as -> by congruence.
  split; [exact Hwf1|]. rewrite Hl, Hfr. cbn [s frequency]. unfold zeros.
  apply length_replicate.
Qed.

End OutcomeFacts.

Lemma assembly_loop_outcome_witness :
  Ok tt = @first_error bench bench_coefs (length (s bench_empty)) ordered_pairs /\
  (Ok tt = Ok tt <->
   Forall (fun p => exists d, @dut_cal_of bench bench_coefs p = Ok d /\
                              (length (s2 d) = length (s bench_empty) \/ length (s2 d) = 1))
          ordered_pairs) /\
  (forall e, Ok tt = Raise e ->
     exists p, p ∈ ordered_pairs /\
       (@dut_cal_of bench bench_coefs p = Raise e \/
        exists d, @dut_cal_of bench bench_coefs p = Ok d /\ e = ValueError /\
                  length (s2 d) ≠ length (s bench_empty) /\ length (s2 d) ≠ 1)).
Proof.
  apply (@assembly_loop_outcome bench bench_ready bench_done (Ok tt) bench_coefs bench_empty).
  - vm_compute. reflexivity.
  - vm_compute. reflexivity.
  - unfold wf4. repeat constructor.
  - vm_compute. reflexivity.
Defined.

Lemma notebook_error_sources_witness :
  (exists path, @read_touchstone bench_missing path = Raise missing_error) \/
  (exists ids meas, @solve bench_missing ids meas = Raise missing_error) \/
  (exists k fwd rev, @correct bench_missing k fwd rev = Raise missing_error) \/
  (missing_error = ValueError /\
   exists short_raw k p d,
     @read_touchstone bench_missing cal_short_path = Ok short_raw /\
     p ∈ ordered_pairs /\ @dut_cal_of bench_missing k p = Ok d /\
     length (s2 d) ≠ length (frequency2 short_raw) /\ length (s2 d) ≠ 1).
Proof.
  apply (@notebook_error_sources bench_missing missing_error missing_heap).
  vm_compute. reflexivity.
Defined.

Lemma final_array_independent_of_initial_contents_witness :
  exists h2' nw1' nw2',
    @assembly_loop bench bench_done = (Ok tt, h2') /\
    splitter_cal bench_done = Some nw1' /\ splitter_cal h2' = Some nw2' /\
    s nw2' = s nw1'.
Proof.
  apply (@final_array_independent_of_initial_contents bench bench_ready bench_done bench_done
           bench_coefs bench_empty bench_full).
  - vm_compute. reflexivity.
  - vm_compute. reflexivity.
  - vm_compute. reflexivity.
  - vm_compute. reflexivity.
  - unfold wf4. repeat constructor.
  - unfold wf4. repeat constructor.
  - vm_compute. reflexivity.
  - vm_compute. reflexivity.
Defined.

Lemma assembly_loop_rerun_same_aggregate_witness :
  exists h'', @assembly_loop bench bench_done = (Ok tt, h'') /\
              splitter_cal h'' = splitter_cal bench_done /\ cal h'' = cal bench_done.
Proof.
  apply (@assembly_loop_rerun_same_aggregate bench bench_ready bench_done bench_coefs bench_empty).
  - vm_compute. reflexivity.
  - vm_compute. reflexivity.
  - unfold wf4. repeat constructor.
  - vm_compute. reflexivity.
Defined.

Lemma ascending_passes_leave_no_mark_witness :
  filter (fun p => p.2 < p.1) ordered_pairs = [(1, 0); (2, 0); (2, 1); (3, 0); (3, 1); (3, 2)] /\
  exists h'',
    @for_ bench _ (filter (fun p => p.2 < p.1) ordered_pairs) (fun p => body p.1 p.2) bench_ready
    = (Ok tt, h'') /\
    splitter_cal h'' = splitter_cal bench_done /\ cal h'' = cal bench_done.
Proof.
  apply (@ascending_passes_leave_no_mark bench bench_ready bench_done bench_coefs bench_empty).
  - vm_compute. reflexivity.
  - vm_compute. reflexivity.
  - unfold wf4. repeat constructor.
  - vm_compute. reflexivity.
Defined.

Lemma assembly_loop_assignment_counts_witness :
  exists evs,
    trace bench_done = trace bench_ready ++ evs /\
    length (assigned evs) = 48 /\
    forall r c, r < 4 -> c < 4 ->
      length (filter (fun t => t = (r, c)) (assigned evs)) = if decide (r = c) then 6 else 2.
Proof.
  apply (@assembly_loop_assignment_counts bench bench_ready bench_done bench_coefs bench_empty).
  - vm_compute. reflexivity.
  - vm_compute. reflexivity.
  - vm_compute. reflexivity.
Defined.

Lemma notebook_aggregate_shape_witness :
  wf4 (s bench_full) /\ length (s bench_full) = length (frequency bench_full).
Proof.
  apply (@notebook_aggregate_shape bench (Ok tt) bench_notebook bench_full).
  - vm_compute. reflexivity.
  - vm_compute. reflexivity.
Defined.

End Splitter.

(** ** The transmission-line formulas: properties *)

Module TLineFacts.

Import TLine.




(** C5: with Z_0 = 75 and Z_L = 150 in exact arithmetic, the reflection
    coefficient is (150-75)/(150+75), which is 1/3, and the standing wave
    ratio is (1+1/3)/(1-1/3), which is 2.  Both values are obtained as
    rationals in lowest terms, so the equalities are exact. *)
Theorem zl_2_Gamma0_swr_75_150 :
  Qred (zl_2_Gamma0 Z_0 Z_L) = (1 # 3)%Q /\
  (zl_2_Gamma0 Z_0 Z_L == (150 - 75) / (150 + 75))%Q /\
  Qred (zl_2_swr Z_0 Z_L) = 2%Q /\
  (zl_2_swr Z_0 Z_L == (1 + (1 # 3)) / (1 - (1 # 3)))%Q.
Proof.
  repeat split; vm_compute; reflexivity.
Qed.




End TLineFacts.
